(** * PULP-DSP strided kernels: a shallow embedding and its properties

    The development follows the C sources of the library:

    - [plp_mat_mult_cmplx_stride_f32s_xpulpv2]  complex strided matrix product,
    - [plp_mat_scale_stride_f32p_xpulpv2]       parallel strided matrix scale,
    - [plp_mat_mult_cmplx_stride_i32]           glue code (dispatcher),
    - [plp_cmplx_dot_prod_i16_xpulpv2]          16-bit complex dot product.

    Machine integers are integers of [Z] with the wrap-around written out,
    [float] is IEEE-754 binary32 as specified by [SpecFloat], and data memory
    is one store shared by every pointer of a call. *)

From Stdlib Require Import ZArith List Lia Bool Permutation.
From Stdlib Require Import Floats.SpecFloat.
Import ListNotations.
Local Open Scope Z_scope.

(** ** 32-bit unsigned arithmetic

    Every index expression of the kernels mixes an [int] loop counter with a
    [uint32_t] dimension or stride, so C evaluates it in [uint32_t]: modulo
    [2^32]. *)

Module U32.

Definition modulus : Z := 2 ^ 32.

Definition wrap (z : Z) : Z := z mod modulus.

Definition add (a b : Z) : Z := wrap (a + b).

Definition mul (a b : Z) : Z := wrap (a * b).

Definition in_range (z : Z) : Prop := 0 <= z < modulus.

End U32.

(** ** binary32 floating point

    [float] of the target is IEEE-754 binary32: 24 bits of precision and a
    maximal exponent of 128, every operation rounded to nearest even.  The
    specification of [SpecFloat] has one NaN, so NaN payloads are not
    distinguished.  Every operation of the source is one rounded operation
    here: no product is fused with a sum. *)

Module F32.

Definition prec : Z := 24.
Definition emax : Z := 128.

Definition float : Type := spec_float.

(** [float x = 0;] converts the integer constant zero: positive zero. *)
Definition zero : float := S754_zero false.

Definition add : float -> float -> float := SFadd prec emax.
Definition sub : float -> float -> float := SFsub prec emax.
Definition mul : float -> float -> float := SFmul prec emax.

(** The binary32 value of a (small) integer constant. *)
Definition of_Z (z : Z) : float := binary_normalize prec emax z 0 false.

End F32.

(** ** Data memory

    One store, addressed in units of one [float]; a pointer is the address of
    its first element and [p[i]] is the cell at [p + i].  The store is
    total: where the buffers of the caller end is not part of the model. *)

Definition mem : Type := Z -> F32.float.

Definition load (h : mem) (p i : Z) : F32.float := h (p + i).

Definition store (h : mem) (p i : Z) (v : F32.float) : mem :=
  fun a => if a =? p + i then v else h a.

(** ** Counted loops

    [for (i = init; i < bound; i += step) body], the comparison and the
    increment taken in [uint32_t], as C does when the bound and the step are
    [uint32_t] (an [int] counter is converted for both, and is taken to wrap
    like the register that holds it where it would pass [INT_MAX]).  The
    loop runs on fuel: [None] is a loop that has not finished within [fuel]
    tests of its condition.  [loop_u32] returns the counter on exit with the
    state, [for_u32] the state alone. *)

Fixpoint loop_u32 {St : Type} (fuel : nat) (i bound step : Z)
    (body : Z -> St -> option St) (s : St) : option (Z * St) :=
  match fuel with
  | O => None
  | S fuel' =>
      if i <? bound then
        match body i s with
        | Some s' => loop_u32 fuel' (U32.add i step) bound step body s'
        | None => None
        end
      else Some (i, s)
  end.

Definition for_u32 {St : Type} (fuel : nat) (i bound step : Z)
    (body : Z -> St -> option St) (s : St) : option St :=
  option_map snd (loop_u32 fuel i bound step body s).

(** The values a loop counter takes when nothing wraps: [k] of them from [i]
    in steps of [step]. *)

Fixpoint steps (k : nat) (i step : Z) : list Z :=
  match k with
  | O => []
  | S k' => i :: steps k' (i + step) step
  end.

Definition trip (i bound step : Z) : nat :=
  Z.to_nat ((bound - i + step - 1) / step).

Definition range (n : Z) : list Z := steps (Z.to_nat n) 0 1.

(** ** Complex strided matrix product (single core)

    [idx2 row stride col part] is the index expression
    [(row * stride + col) * 2 + part] of the kernel. *)

Definition idx2 (row stride col part : Z) : Z :=
  U32.add (U32.mul (U32.add (U32.mul row stride) col) 2) part.

Definition cmac (h : mem) (pSrcA pSrcB strideA strideB m o n : Z)
    (acc : F32.float * F32.float) : F32.float * F32.float :=
  let '(sum_re, sum_im) := acc in
  let a_re := load h pSrcA (idx2 m strideA n 0) in
  let a_im := load h pSrcA (idx2 m strideA n 1) in
  let b_re := load h pSrcB (idx2 n strideB o 0) in
  let b_im := load h pSrcB (idx2 n strideB o 1) in
  (F32.add sum_re (F32.sub (F32.mul a_re b_re) (F32.mul a_im b_im)),
   F32.add sum_im (F32.add (F32.mul a_re b_im) (F32.mul a_im b_re))).

Definition plp_mat_mult_cmplx_stride_f32s_xpulpv2 (fuel : nat)
    (pSrcA pSrcB M N O strideA strideB strideC pDstC : Z) (h : mem)
    : option mem :=
  for_u32 fuel 0 M 1 (fun m h =>
    for_u32 fuel 0 O 1 (fun o h =>
      match
        for_u32 fuel 0 N 1
          (fun n acc => Some (cmac h pSrcA pSrcB strideA strideB m o n acc))
          (F32.zero, F32.zero)
      with
      | Some (sum_re, sum_im) =>
          Some (store (store h pDstC (idx2 m strideC o 0) sum_re)
                      pDstC (idx2 m strideC o 1) sum_im)
      | None => None
      end) h) h.

(** The reference product, in the words of the specification: the element
    [(row, col)] of a complex view lies at the flat offset
    [(row * stride + col) * 2], real part first, and an output element is the
    sum over [n] of the complex products, accumulated from zero in the order
    of [n]. *)

Definition offset2 (row stride col part : Z) : Z :=
  (row * stride + col) * 2 + part.

Definition cmplx_at (h : mem) (p stride row col : Z) : F32.float * F32.float :=
  (h (p + offset2 row stride col 0), h (p + offset2 row stride col 1)).

Definition cmplx_mac (acc a b : F32.float * F32.float)
    : F32.float * F32.float :=
  (F32.add (fst acc) (F32.sub (F32.mul (fst a) (fst b)) (F32.mul (snd a) (snd b))),
   F32.add (snd acc) (F32.add (F32.mul (fst a) (snd b)) (F32.mul (snd a) (fst b)))).

Definition ref_product (h : mem) (pSrcA pSrcB N strideA strideB m o : Z)
    : F32.float * F32.float :=
  fold_left
    (fun acc n =>
       cmplx_mac acc (cmplx_at h pSrcA strideA m n) (cmplx_at h pSrcB strideB n o))
    (range N) (F32.zero, F32.zero).

(** A complex matrix view: the cells of a [rows x cols] matrix of the given
    stride at [p]. *)

Definition in_view2 (p rows cols stride a : Z) : Prop :=
  exists r c k,
    0 <= r < rows /\ 0 <= c < cols /\ 0 <= k < 2 /\ a = p + offset2 r stride c k.

(** A view is valid when its dimensions and stride are [uint32_t] values, its
    stride is at least its width, and every scalar of it has an offset that
    32 bits can hold. *)

Definition valid_view2 (rows cols stride : Z) : Prop :=
  U32.in_range rows /\ U32.in_range cols /\ U32.in_range stride /\
  cols <= stride /\
  (forall r c, 0 <= r < rows -> 0 <= c < cols ->
     offset2 r stride c 1 < U32.modulus).

(** ** Parallel strided matrix scale *)

(** Modelled from the spec: the struct [plp_mat_scale_stride_instance_f32]
    is declared in [plp_math.h], which is not among the sources.  The record
    has the fields the kernel reads; it is the job descriptor of the
    specification: the pointers, the dimensions, the strides, the scale
    factor and the size of the worker pool. *)

Record plp_mat_scale_stride_instance_f32 : Type := {
  pSrc : Z;
  M : Z;
  N : Z;
  strideSrc : Z;
  strideDst : Z;
  scaleFactor : F32.float;
  nPE : Z;
  pDst : Z
}.

Definition idx1 (row stride col : Z) : Z :=
  U32.add (U32.mul row stride) col.

(** [core_id] is the value of [rt_core_id()]: the index of the calling
    worker. *)

Definition plp_mat_scale_stride_f32p_xpulpv2 (fuel : nat) (core_id : Z)
    (a : plp_mat_scale_stride_instance_f32) (h : mem) : option mem :=
  for_u32 fuel (U32.wrap core_id) (M a) (nPE a) (fun m h =>
    for_u32 fuel 0 (N a) 1 (fun n h =>
      let val := F32.mul (load h (pSrc a) (idx1 m (strideSrc a) n)) (scaleFactor a) in
      Some (store h (pDst a) (idx1 m (strideDst a) n) val)) h) h.

(** The rows a worker visits: the counter values of the row loop, in order. *)

Definition worker_rows (fuel : nat) (core_id M nPE : Z) : option (list Z) :=
  for_u32 fuel (U32.wrap core_id) M nPE (fun m rows => Some (rows ++ [m])) [].

(** One call per worker, the workers taken in the order of [ws]. *)

Fixpoint run_workers (fuel : nat) (ws : list Z)
    (a : plp_mat_scale_stride_instance_f32) (h : mem) : option mem :=
  match ws with
  | [] => Some h
  | w :: ws' =>
      match plp_mat_scale_stride_f32p_xpulpv2 fuel w a h with
      | Some h' => run_workers fuel ws' a h'
      | None => None
      end
  end.

(** The single-core execution of a job: one worker, index 0, pool size 1. *)

Definition single_core (a : plp_mat_scale_stride_instance_f32)
    : plp_mat_scale_stride_instance_f32 :=
  {| pSrc := pSrc a; M := M a; N := N a; strideSrc := strideSrc a;
     strideDst := strideDst a; scaleFactor := scaleFactor a; nPE := 1;
     pDst := pDst a |}.

Definition worker_ids (nPE : Z) : list Z := range nPE.

(** The cells of a real [rows x cols] view. *)

Definition offset1 (row stride col : Z) : Z := row * stride + col.

Definition in_view1 (p rows cols stride a : Z) : Prop :=
  exists r c, 0 <= r < rows /\ 0 <= c < cols /\ a = p + offset1 r stride c.

Definition valid_view1 (rows cols stride : Z) : Prop :=
  U32.in_range rows /\ U32.in_range cols /\ U32.in_range stride /\
  cols <= stride /\
  (forall r c, 0 <= r < rows -> 0 <= c < cols ->
     offset1 r stride c < U32.modulus).

(** A valid job: valid source and destination views that do not overlap, and
    a row loop whose counter does not wrap. *)

Definition valid_job (a : plp_mat_scale_stride_instance_f32) : Prop :=
  valid_view1 (M a) (N a) (strideSrc a) /\
  valid_view1 (M a) (N a) (strideDst a) /\
  1 <= nPE a /\ M a + nPE a <= U32.modulus /\
  (forall x, in_view1 (pDst a) (M a) (N a) (strideDst a) x ->
             ~ in_view1 (pSrc a) (M a) (N a) (strideSrc a) x).

(** ** Glue code of the complex 32-bit integer strided matrix product

    The two kernels the glue code forwards to, the identifier
    [ARCHI_FC_CID] of the fabric controller and the query [rt_cluster_id()]
    belong to the platform and to other files of the library: they are the
    variables of this section.  [World] is whatever a call can read or
    change (memory, the identity of the calling core). *)

Section Glue.

Variable World : Type.
Variable rt_cluster_id : World -> Z.
Variable ARCHI_FC_CID : Z.
Variable plp_mat_mult_cmplx_stride_i32s_rv32im :
  Z -> Z -> Z -> Z -> Z -> Z -> Z -> Z -> Z -> World -> World.
Variable plp_mat_mult_cmplx_stride_i32s_xpulpv2 :
  Z -> Z -> Z -> Z -> Z -> Z -> Z -> Z -> Z -> World -> World.

Definition plp_mat_mult_cmplx_stride_i32
    (pSrcA pSrcB M N O strideA strideB strideC pDstC : Z) (w : World) : World :=
  if rt_cluster_id w =? ARCHI_FC_CID then
    plp_mat_mult_cmplx_stride_i32s_rv32im
      pSrcA pSrcB M N O strideA strideB strideC pDstC w
  else
    plp_mat_mult_cmplx_stride_i32s_xpulpv2
      pSrcA pSrcB M N O strideA strideB strideC pDstC w.

End Glue.

(** A world that records the kernel calls made: the identity of the core
    that is running and the log of the calls, each with the kernel variant
    and the nine arguments it received. *)

Inductive variant : Type := Rv32im | Xpulpv2.

Record mat_mult_args : Type := {
  arg_pSrcA : Z; arg_pSrcB : Z;
  arg_M : Z; arg_N : Z; arg_O : Z;
  arg_strideA : Z; arg_strideB : Z; arg_strideC : Z;
  arg_pDstC : Z
}.

Record kernel_call : Type := {
  call_variant : variant;
  call_args : mat_mult_args
}.

Record logged : Type := {
  cluster_id : Z;
  calls : list kernel_call
}.

Definition log_call (v : variant)
    (pSrcA pSrcB M N O strideA strideB strideC pDstC : Z) (w : logged) : logged :=
  {| cluster_id := cluster_id w;
     calls := calls w ++
       [{| call_variant := v;
           call_args :=
             {| arg_pSrcA := pSrcA; arg_pSrcB := pSrcB;
                arg_M := M; arg_N := N; arg_O := O;
                arg_strideA := strideA; arg_strideB := strideB;
                arg_strideC := strideC; arg_pDstC := pDstC |} |}] |}.

Definition logged_glue (fc : Z)
    : Z -> Z -> Z -> Z -> Z -> Z -> Z -> Z -> Z -> logged -> logged :=
  plp_mat_mult_cmplx_stride_i32 logged cluster_id fc
    (log_call Rv32im) (log_call Xpulpv2).

(** A sequence of invocations, each made by the core whose cluster
    identifier comes with it. *)

Definition invoke (fc : Z) (w : logged) (c : Z * mat_mult_args) : logged :=
  let x := snd c in
  logged_glue fc
    (arg_pSrcA x) (arg_pSrcB x) (arg_M x) (arg_N x) (arg_O x)
    (arg_strideA x) (arg_strideB x) (arg_strideC x) (arg_pDstC x)
    {| cluster_id := fst c; calls := calls w |}.

Definition selected (fc cid : Z) : variant :=
  if cid =? fc then Rv32im else Xpulpv2.

(** ** 16-bit complex dot product *)

(** Two's complement integers of [w] bits. *)

Definition swrap (w z : Z) : Z := (z + 2 ^ (w - 1)) mod 2 ^ w - 2 ^ (w - 1).

Module I32.
Definition wrap : Z -> Z := swrap 32.
Definition add (a b : Z) : Z := wrap (a + b).
Definition sub (a b : Z) : Z := wrap (a - b).
Definition mul (a b : Z) : Z := wrap (a * b).
End I32.

Module I16.
Definition wrap : Z -> Z := swrap 16.
End I16.

(** An [int16_t] vector: whatever the cell holds is read as a 16-bit signed
    value. *)

Definition vec16 : Type := Z -> Z.

Definition load16 (p : vec16) (i : Z) : Z := I16.wrap (p i).

(** [v2s]: two 16-bit lanes, lane 0 at the lower address. *)

Definition v2s : Type := (Z * Z)%type.

Definition load_v2s (p : vec16) (i : Z) : v2s := (load16 p i, load16 p (i + 1)).

(** [__builtin_shuffle (x, y, mask)]: lane [k] of the result is element
    [mask[k]] of the concatenation of [x] and [y]. *)

Definition shuffle_elt (x y : v2s) (k : Z) : Z :=
  match k mod 4 with
  | 0 => fst x
  | 1 => snd x
  | 2 => fst y
  | _ => snd y
  end.

Definition shuffle (x y : v2s) (mask : v2s) : v2s :=
  (shuffle_elt x y (fst mask), shuffle_elt x y (snd mask)).

(** Modelled from the spec: [__DOTP2] and [__SUMDOTP2] are macros of
    [plp_math.h], which is not among the sources, and the specification does
    not describe them; they are taken as the comments of the kernel spell
    them out ([real_sum += ... + ae[0]*cg[0] + ae[1]*cg[1]]): the signed dot
    product of the two lanes, and that dot product added to a 32-bit
    accumulator, in 32-bit two's complement arithmetic. *)

Definition DOTP2 (x y : v2s) : Z :=
  I32.wrap (fst x * fst y + snd x * snd y).

Definition SUMDOTP2 (x y : v2s) (acc : Z) : Z :=
  I32.wrap (acc + fst x * fst y + snd x * snd y).

(** The kernel returns the two values it stores through [realResult] and
    [imagResult].  The [int32_t] sums wrap (two's complement, as the
    target computes them), the stores narrow them to [int16_t], and on exit
    from the loop [i] is the counter the loop stopped at. *)

Definition plp_cmplx_dot_prod_i16_xpulpv2 (fuel : nat)
    (pSrcA pSrcB : vec16) (numSamples : Z) : option (Z * Z) :=
  let real_sum := 0 in
  let imag_sum := 0 in
  let loopEnd := numSamples / 2 in
  match
    loop_u32 fuel 0 loopEnd 1
      (fun i '(real_sum, imag_sum) =>
         let ab := load_v2s pSrcA (U32.mul 4 i) in
         let ef := load_v2s pSrcA (U32.add (U32.mul 4 i) 2) in
         let cd := load_v2s pSrcB (U32.mul 4 i) in
         let gh := load_v2s pSrcB (U32.add (U32.mul 4 i) 2) in
         let bf := shuffle ab ef (1, 3) in
         let dh := shuffle cd gh (1, 3) in
         let ae := shuffle ab ef (0, 2) in
         let cg := shuffle cd gh (0, 2) in
         let real_sum := SUMDOTP2 ae cg real_sum in
         let real_sum := I32.sub real_sum (DOTP2 bf dh) in
         let dc := shuffle cd cd (1, 0) in
         let hg := shuffle gh gh (1, 0) in
         let imag_sum := SUMDOTP2 ab dc imag_sum in
         let imag_sum := SUMDOTP2 ef hg imag_sum in
         Some (real_sum, imag_sum))
      (real_sum, imag_sum)
  with
  | None => None
  | Some (i, (real_sum, imag_sum)) =>
      let '(real_sum, imag_sum) :=
        if negb (Z.land numSamples 1 =? 0) then
          let r_a1 := load16 pSrcA (U32.mul 4 i) in
          let i_a1 := load16 pSrcA (U32.add (U32.mul 4 i) 1) in
          let r_b1 := load16 pSrcB (U32.mul 4 i) in
          let i_b1 := load16 pSrcB (U32.add (U32.mul 4 i) 1) in
          (I32.add real_sum (I32.sub (I32.mul r_a1 r_b1) (I32.mul i_a1 i_b1)),
           I32.add imag_sum (I32.add (I32.mul r_a1 i_b1) (I32.mul i_a1 r_b1)))
        else (real_sum, imag_sum)
      in
      Some (I16.wrap real_sum, I16.wrap imag_sum)
  end.

(** The exact sums over the samples, in unbounded integers. *)

Definition sample_re (pSrcA pSrcB : vec16) (n : Z) : Z :=
  load16 pSrcA (2 * n) * load16 pSrcB (2 * n)
  - load16 pSrcA (2 * n + 1) * load16 pSrcB (2 * n + 1).

Definition sample_im (pSrcA pSrcB : vec16) (n : Z) : Z :=
  load16 pSrcA (2 * n) * load16 pSrcB (2 * n + 1)
  + load16 pSrcA (2 * n + 1) * load16 pSrcB (2 * n).

Definition exact_sum (f : Z -> Z) (numSamples : Z) : Z :=
  fold_left (fun acc n => acc + f n) (range numSamples) 0.

(** ** Loop-free forms of the kernels

    What the kernels compute once their loops have run to the end: folds
    over the counter values.  The lemmas below show that the kernels, given
    enough fuel, return them. *)

Definition mm_dot (pSrcA pSrcB N strideA strideB m o : Z) (h : mem)
    : F32.float * F32.float :=
  fold_left (fun acc n => cmac h pSrcA pSrcB strideA strideB m o n acc)
    (range N) (F32.zero, F32.zero).

Definition mm_cell (pSrcA pSrcB N strideA strideB strideC pDstC m o : Z)
    (h : mem) : mem :=
  let s := mm_dot pSrcA pSrcB N strideA strideB m o h in
  store (store h pDstC (idx2 m strideC o 0) (fst s))
        pDstC (idx2 m strideC o 1) (snd s).

Definition mm_row (pSrcA pSrcB N O strideA strideB strideC pDstC m : Z)
    (h : mem) : mem :=
  fold_left
    (fun h o => mm_cell pSrcA pSrcB N strideA strideB strideC pDstC m o h)
    (range O) h.

Definition mm_all (pSrcA pSrcB M N O strideA strideB strideC pDstC : Z)
    (h : mem) : mem :=
  fold_left
    (fun h m => mm_row pSrcA pSrcB N O strideA strideB strideC pDstC m h)
    (range M) h.

Definition sc_cell (a : plp_mat_scale_stride_instance_f32) (m n : Z)
    (h : mem) : mem :=
  store h (pDst a) (idx1 m (strideDst a) n)
    (F32.mul (load h (pSrc a) (idx1 m (strideSrc a) n)) (scaleFactor a)).

Definition sc_row (a : plp_mat_scale_stride_instance_f32) (m : Z) (h : mem)
    : mem :=
  fold_left (fun h n => sc_cell a m n h) (range (N a)) h.

Definition sc_worker (a : plp_mat_scale_stride_instance_f32) (core_id : Z)
    (h : mem) : mem :=
  fold_left (fun h m => sc_row a m h)
    (steps (trip core_id (M a) (nPE a)) core_id (nPE a)) h.

(** The fuel that is enough for a call: one more than the longest loop. *)

Definition enough (fuel : nat) (bound : Z) : Prop :=
  (Z.to_nat bound < fuel)%nat.

(** An action on the store that only ever writes zero. *)

Definition writes_zero (f : mem -> mem) : Prop :=
  forall s a, f s a = s a \/ f s a = F32.zero.

(** What a complete scale of the job leaves in the store [h'], started
    from [h]: the cells outside the destination view as they were, and the
    destination element [(m, n)] the source element times the scale
    factor. *)

Definition scaled_from (a : plp_mat_scale_stride_instance_f32) (h h' : mem)
    : Prop :=
  (forall x, ~ in_view1 (pDst a) (M a) (N a) (strideDst a) x -> h' x = h x) /\
  (forall m n, 0 <= m < M a -> 0 <= n < N a ->
     h' (pDst a + offset1 m (strideDst a) n)
     = F32.mul (h (pSrc a + offset1 m (strideSrc a) n)) (scaleFactor a)).

(** A job with an empty worker pool: one row, one column, [nPE = 0]. *)

Definition job_no_pool : plp_mat_scale_stride_instance_f32 :=
  {| pSrc := 0; M := 1; N := 1; strideSrc := 1; strideDst := 1;
     scaleFactor := F32.of_Z 2; nPE := 0; pDst := 16 |}.

(** One round of the loop of the dot product: two samples. *)

Definition dp_pair (pSrcA pSrcB : vec16) (i : Z) (sums : Z * Z) : Z * Z :=
  let '(real_sum, imag_sum) := sums in
  let ab := load_v2s pSrcA (U32.mul 4 i) in
  let ef := load_v2s pSrcA (U32.add (U32.mul 4 i) 2) in
  let cd := load_v2s pSrcB (U32.mul 4 i) in
  let gh := load_v2s pSrcB (U32.add (U32.mul 4 i) 2) in
  let bf := shuffle ab ef (1, 3) in
  let dh := shuffle cd gh (1, 3) in
  let ae := shuffle ab ef (0, 2) in
  let cg := shuffle cd gh (0, 2) in
  let real_sum := SUMDOTP2 ae cg real_sum in
  let real_sum := I32.sub real_sum (DOTP2 bf dh) in
  let dc := shuffle cd cd (1, 0) in
  let hg := shuffle gh gh (1, 0) in
  let imag_sum := SUMDOTP2 ab dc imag_sum in
  let imag_sum := SUMDOTP2 ef hg imag_sum in
  (real_sum, imag_sum).

(** ** Concrete inputs

    A store whose cell [a] holds the binary32 value of [a], a store with
    [1+2i] at 0 and [3+4i] at 2, a job of five rows for two workers, and
    two vectors of three complex samples. *)

Definition demo_mem : mem := fun a => F32.of_Z a.

Definition mem_1x1 : mem :=
  fun a =>
    if a =? 0 then F32.of_Z 1
    else if a =? 1 then F32.of_Z 2
    else if a =? 2 then F32.of_Z 3
    else if a =? 3 then F32.of_Z 4
    else F32.zero.

Definition demo_job : plp_mat_scale_stride_instance_f32 :=
  {| pSrc := 0; M := 5; N := 2; strideSrc := 3; strideDst := 4;
     scaleFactor := F32.of_Z 3; nPE := 2; pDst := 100 |}.

Definition demo_vecA : vec16 :=
  fun i => nth (Z.to_nat i) [1; 2; 3; 4; 32767; -32768] 0.

Definition demo_vecB : vec16 :=
  fun i => nth (Z.to_nat i) [7; 8; 9; 10; -32768; -32768] 0.

(** ** 8-bit complex conjugate *)

Module I8.
Definition wrap : Z -> Z := swrap 8.
End I8.

(** A store of [int8_t] cells, addressed in units of one cell; whatever a
    cell holds is read as an 8-bit signed value, and a store narrows what it
    writes. *)

Definition mem8 : Type := Z -> Z.

Definition load8 (h : mem8) (p i : Z) : Z := I8.wrap (h (p + i)).

Definition store8 (h : mem8) (p i v : Z) : mem8 :=
  fun a => if a =? p + i then I8.wrap v else h a.

(** [v4s]: four 8-bit lanes, lane 0 at the lowest address. *)

Definition v4s : Type := (Z * Z * Z * Z)%type.

Definition load_v4s (h : mem8) (p i : Z) : v4s :=
  (load8 h p i, load8 h p (i + 1), load8 h p (i + 2), load8 h p (i + 3)).

Definition store_v4s (h : mem8) (p i : Z) (v : v4s) : mem8 :=
  let '(v0, v1, v2, v3) := v in
  store8 (store8 (store8 (store8 h p i v0) p (i + 1) v1) p (i + 2) v2)
         p (i + 3) v3.

(** Modelled from the spec: [__EXOR4] and [__ADD4] are macros of
    [plp_math.h], which is not among the sources, and the specification does
    not describe them; they are taken by their names and by the algorithm
    the kernel documents ([pDst[2n+1] = -pSrc[2n+1]]): the exclusive or and
    the sum of two vectors lane by lane, each lane in 8-bit two's complement
    arithmetic. *)

Definition EXOR4 (x y : v4s) : v4s :=
  let '(x0, x1, x2, x3) := x in
  let '(y0, y1, y2, y3) := y in
  (I8.wrap (Z.lxor x0 y0), I8.wrap (Z.lxor x1 y1),
   I8.wrap (Z.lxor x2 y2), I8.wrap (Z.lxor x3 y3)).

Definition ADD4 (x y : v4s) : v4s :=
  let '(x0, x1, x2, x3) := x in
  let '(y0, y1, y2, y3) := y in
  (I8.wrap (x0 + y0), I8.wrap (x1 + y1), I8.wrap (x2 + y2), I8.wrap (x3 + y3)).

(** One round of the loop: two samples. *)

Definition conj_quad (pSrc pDst i : Z) (h : mem8) : mem8 :=
  let inverter : v4s := (0, -1, 0, -1) in
  let adder : v4s := (0, 1, 0, 1) in
  let cVec := load_v4s h pSrc (U32.mul 4 i) in
  let cVec := EXOR4 cVec inverter in
  let cVec := ADD4 cVec adder in
  store_v4s h pDst (U32.mul 4 i) cVec.

Definition plp_cmplx_conj_i8_xpulpv2 (fuel : nat)
    (pSrc pDst numSamples : Z) (h : mem8) : option mem8 :=
  let loop_length := numSamples / 2 in
  let clean_up := Z.land numSamples 1 in
  match
    loop_u32 fuel 0 loop_length 1
      (fun i h => Some (conj_quad pSrc pDst i h)) h
  with
  | None => None
  | Some (i, h) =>
      if negb (clean_up =? 0) then
        let h := store8 h pDst (U32.mul i 4) (load8 h pSrc (U32.mul i 4)) in
        Some (store8 h pDst (U32.add (U32.mul i 4) 1)
                (- load8 h pSrc (U32.add (U32.mul i 4) 1)))
      else Some h
  end.

(** The conjugate the kernel documents, value by value: the scalar at an
    even offset is the real part and is copied, the one at an odd offset is
    the imaginary part and is negated, in 8 bits. *)

Definition conj_value (h : mem8) (pSrc j : Z) : Z :=
  if Z.even j then load8 h pSrc j else I8.wrap (- load8 h pSrc j).

(** A store of bytes with four complex samples from address 0, [-128]
    among the imaginary parts. *)

Definition demo_mem8 : mem8 :=
  fun a => nth (Z.to_nat a) [1; 2; -3; -128; 5; 127; 0; -1] 0.

(** What a complete product leaves in the store [h'], started from [h]:
    the cells outside the destination view as they were, and the
    destination element [(m, o)] the reference product. *)

Definition product_from (pSrcA pSrcB M N O strideA strideB strideC pDstC : Z)
    (h h' : mem) : Prop :=
  (forall a, ~ in_view2 pDstC M O strideC a -> h' a = h a) /\
  (forall m o, 0 <= m < M -> 0 <= o < O ->
     h' (pDstC + offset2 m strideC o 0)
     = fst (ref_product h pSrcA pSrcB N strideA strideB m o) /\
     h' (pDstC + offset2 m strideC o 1)
     = snd (ref_product h pSrcA pSrcB N strideA strideB m o)).

(** A vector that agrees with [demo_vecA] on its three samples and differs
    behind them. *)

Definition demo_vecA_longer : vec16 :=
  fun i => if i =? 6 then 99 else demo_vecA i.

(** Two jobs whose row counter passes [2^32]: five rows for a pool of
    [2^32 - 2] workers, and [2^32 - 1] rows of no column for two workers. *)

Definition job_wrap : plp_mat_scale_stride_instance_f32 :=
  {| pSrc := 0; M := 5; N := 1; strideSrc := 1; strideDst := 1;
     scaleFactor := F32.of_Z 3; nPE := 2 ^ 32 - 2; pDst := 100 |}.

Definition job_spin : plp_mat_scale_stride_instance_f32 :=
  {| pSrc := 0; M := 2 ^ 32 - 1; N := 0; strideSrc := 0; strideDst := 0;
     scaleFactor := F32.of_Z 3; nPE := 2; pDst := 100 |}.

(** A job whose destination stride is below its width: the destination
    rows overlap. *)

Definition job_narrow : plp_mat_scale_stride_instance_f32 :=
  {| pSrc := 0; M := 2; N := 2; strideSrc := 2; strideDst := 1;
     scaleFactor := F32.of_Z 3; nPE := 2; pDst := 100 |}.

(** * Properties *)

(** ** Counted loops *)

Lemma wrap_small (z : Z) : U32.in_range z -> U32.wrap z = z.
Proof. unfold U32.in_range, U32.wrap. intros H. now apply Z.mod_small. Qed.

Lemma trip_done (i bound step : Z) :
  0 < step -> bound <= i -> trip i bound step = 0%nat.
Proof.
  intros Hs Hi. unfold trip.
  destruct (Z.eq_dec bound i) as [->|Hne].
  - replace (i - i + step - 1) with (step - 1) by lia.
    rewrite Z.div_small by lia. reflexivity.
  - assert ((bound - i + step - 1) / step < 1) as Hlt.
    { apply Z.div_lt_upper_bound; lia. }
    destruct ((bound - i + step - 1) / step); try lia; reflexivity.
Qed.

Lemma trip_next (i bound step : Z) :
  0 < step -> i < bound ->
  trip i bound step = S (trip (i + step) bound step).
Proof.
  intros Hs Hi. unfold trip.
  replace (bound - i + step - 1) with ((bound - (i + step) + step - 1) + 1 * step) by lia.
  rewrite Z.div_add by lia.
  assert (0 <= (bound - (i + step) + step - 1) / step) as Hq.
  { apply Z.div_pos; lia. }
  rewrite Z2Nat.inj_add by lia. simpl. lia.
Qed.

Lemma trip_unit (n : Z) : trip 0 n 1 = Z.to_nat n.
Proof. unfold trip. rewrite Z.div_1_r. f_equal. lia. Qed.

Lemma loop_u32_run {St : Type} (body : Z -> St -> option St) (g : Z -> St -> St)
    (bound step : Z) :
  0 < step -> bound + step <= U32.modulus ->
  (forall j s, body j s = Some (g j s)) ->
  forall fuel i s,
    0 <= i -> (trip i bound step < fuel)%nat ->
    loop_u32 fuel i bound step body s =
    Some (i + Z.of_nat (trip i bound step) * step,
          fold_left (fun s j => g j s) (steps (trip i bound step) i step) s).
Proof.
  intros Hs Hb Hbody. induction fuel as [|fuel IH]; intros i s Hi Hf; [lia|].
  simpl. destruct (Z.ltb_spec i bound) as [Hlt|Hge].
  - rewrite Hbody. rewrite (trip_next i bound step) in * by assumption.
    assert (U32.add i step = i + step) as ->.
    { apply wrap_small. unfold U32.in_range. lia. }
    rewrite IH by lia. cbn [steps fold_left]. rewrite Nat2Z.inj_succ.
    do 2 f_equal. lia.
  - rewrite trip_done by assumption. cbn [steps fold_left].
    do 2 f_equal. lia.
Qed.

Lemma for_u32_run {St : Type} (body : Z -> St -> option St) (g : Z -> St -> St)
    (bound step : Z) :
  0 < step -> bound + step <= U32.modulus ->
  (forall j s, body j s = Some (g j s)) ->
  forall fuel i s,
    0 <= i -> (trip i bound step < fuel)%nat ->
    for_u32 fuel i bound step body s =
    Some (fold_left (fun s j => g j s) (steps (trip i bound step) i step) s).
Proof.
  intros Hs Hb Hbody fuel i s Hi Hf. unfold for_u32.
  now rewrite (loop_u32_run body g bound step Hs Hb Hbody fuel i s Hi Hf).
Qed.

Lemma for_u32_range {St : Type} (body : Z -> St -> option St) (g : Z -> St -> St)
    (n : Z) (fuel : nat) (s : St) :
  U32.in_range n -> enough fuel n ->
  (forall j s, body j s = Some (g j s)) ->
  for_u32 fuel 0 n 1 body s = Some (fold_left (fun s j => g j s) (range n) s).
Proof.
  unfold U32.in_range, enough. intros Hn Hf Hbody.
  rewrite (for_u32_run body g n 1); rewrite ?trip_unit; auto; try lia.
Qed.

Lemma in_steps (k : nat) (i step j : Z) :
  In j (steps k i step) <-> exists t, 0 <= t < Z.of_nat k /\ j = i + t * step.
Proof.
  revert i. induction k as [|k IH]; intros i; simpl.
  - split; [tauto | intros (t & Ht & _); lia].
  - rewrite IH. split.
    + intros [<- | (t & Ht & ->)].
      * exists 0. lia.
      * exists (t + 1). lia.
    + intros (t & Ht & ->). destruct (Z.eq_dec t 0) as [->|Hne].
      * left. lia.
      * right. exists (t - 1). lia.
Qed.

Lemma in_range_iff (n j : Z) : In j (range n) <-> 0 <= j < n.
Proof.
  unfold range. rewrite in_steps. split.
  - intros (t & Ht & ->). lia.
  - intros Hj. exists j. lia.
Qed.

Lemma NoDup_steps (k : nat) (i step : Z) : 0 < step -> NoDup (steps k i step).
Proof.
  intros Hs. revert i. induction k as [|k IH]; intros i; simpl; constructor.
  - rewrite in_steps. intros (t & Ht & He). nia.
  - apply IH.
Qed.

Lemma NoDup_range (n : Z) : NoDup (range n).
Proof. apply NoDup_steps. lia. Qed.

(** ** Sequences of writes with disjoint footprints

    A sequence of actions on the store, the action of index [i] writing only
    inside its footprint [fp i] and establishing [Q i] whenever the cells of
    [R] still hold what they held in [h0].  When the footprints are pairwise
    disjoint and disjoint from [R], the whole sequence leaves every cell
    outside the footprints alone and establishes every [Q i], in whatever
    order the indices come. *)

Section Footprints.

Variable I : Type.
Variable act : I -> mem -> mem.
Variable D : I -> Prop.
Variable fp : I -> Z -> Prop.
Variable R : Z -> Prop.
Variable Q : I -> mem -> Prop.
Variable h0 : mem.

Hypothesis act_frame : forall i s a, D i -> ~ fp i a -> act i s a = s a.
Hypothesis act_post :
  forall i s, D i -> (forall b, R b -> s b = h0 b) -> Q i (act i s).
Hypothesis Q_local :
  forall i s s', D i -> Q i s -> (forall a, fp i a -> s' a = s a) -> Q i s'.
Hypothesis fp_disjoint :
  forall i j a, D i -> D j -> fp i a -> fp j a -> i = j.
Hypothesis fp_R : forall i a, D i -> fp i a -> ~ R a.


Lemma run_frame (l : list I) :
  (forall i, In i l -> D i) ->
  forall a, (forall i, In i l -> ~ fp i a) -> fold_left (fun s i => act i s) l h0 a = h0 a.
Proof.
  induction l as [|x l IH] using rev_ind; intros HD a Ha.
  - reflexivity.
  - rewrite fold_left_app. cbn [fold_left].
    rewrite act_frame.
    + apply IH; intros i Hi; [apply HD | apply Ha]; apply in_or_app; auto.
    + apply HD, in_or_app. right. now left.
    + apply Ha, in_or_app. right. now left.
Qed.

Lemma run_keeps_R (l : list I) :
  (forall i, In i l -> D i) ->
  forall b, R b -> fold_left (fun s i => act i s) l h0 b = h0 b.
Proof.
  intros HD b Hb. apply run_frame; [assumption|].
  intros i Hi Hfp. exact (fp_R i b (HD i Hi) Hfp Hb).
Qed.

Lemma run_post (l : list I) :
  (forall i, In i l -> D i) -> NoDup l ->
  forall i, In i l -> Q i (fold_left (fun s i => act i s) l h0).
Proof.
  induction l as [|x l IH] using rev_ind; intros HD Hnd i Hi.
  - destruct Hi.
  - assert (forall j, In j l -> D j) as HDl.
    { intros j Hj. apply HD, in_or_app. now left. }
    assert (D x) as HDx.
    { apply HD, in_or_app. right. now left. }
    apply NoDup_remove in Hnd. rewrite app_nil_r in Hnd.
    destruct Hnd as [Hndl Hx].
    rewrite fold_left_app. cbn [fold_left].
    apply in_app_or in Hi. destruct Hi as [Hi | [<- | []]].
    + apply Q_local with (s := fold_left (fun s i => act i s) l h0); auto.
      intros a Hfa. apply act_frame; [assumption|].
      intros Hfx. assert (i = x) by (apply (fp_disjoint i x a); auto).
      subst. contradiction.
    + apply act_post; [assumption|]. now apply run_keeps_R.
Qed.

End Footprints.

(** Actions that only ever write zero. *)

Lemma writes_zero_fold {I : Type} (act : I -> mem -> mem) (l : list I) :
  (forall i, In i l -> writes_zero (act i)) ->
  writes_zero (fun s => fold_left (fun s i => act i s) l s).
Proof.
  induction l as [|x l IH] using rev_ind; intros Hz s a.
  - now left.
  - rewrite fold_left_app. cbn [fold_left].
    assert (writes_zero (act x)) as Hx.
    { apply Hz, in_or_app. right. now left. }
    destruct (Hx (fold_left (fun s i => act i s) l s) a) as [-> | ->];
      [|now right].
    apply IH. intros i Hi. apply Hz, in_or_app. now left.
Qed.

Lemma zero_after {I : Type} (act : I -> mem -> mem) (l : list I) (i : I) (c : Z) :
  (forall j, In j l -> writes_zero (act j)) ->
  In i l -> (forall s, act i s c = F32.zero) ->
  forall s, fold_left (fun s i => act i s) l s c = F32.zero.
Proof.
  intros Hz Hi Hc s. apply in_split in Hi. destruct Hi as (l1 & l2 & ->).
  rewrite fold_left_app. cbn [fold_left].
  destruct (writes_zero_fold act l2) with
    (s := act i (fold_left (fun s i => act i s) l1 s)) (a := c) as [-> | ->].
  - intros j Hj. apply Hz, in_or_app. right. now right.
  - apply Hc.
  - reflexivity.
Qed.

Lemma store_same (h : mem) (p i : Z) (v : F32.float) : store h p i v (p + i) = v.
Proof. unfold store. now rewrite Z.eqb_refl. Qed.

Lemma store_other (h : mem) (p i : Z) (v : F32.float) (a : Z) :
  a <> p + i -> store h p i v a = h a.
Proof. unfold store. intros Hne. destruct (Z.eqb_spec a (p + i)); congruence. Qed.

Lemma writes_zero_store (p i : Z) : writes_zero (fun s => store s p i F32.zero).
Proof.
  intros s a. unfold store. destruct (a =? p + i); [now right | now left].
Qed.

Lemma fold_left_ext_in {A B : Type} (f g : A -> B -> A) (l : list B) :
  (forall a x, In x l -> f a x = g a x) ->
  forall a, fold_left f l a = fold_left g l a.
Proof.
  induction l as [|x l IH]; intros Hfg a; [reflexivity|].
  cbn [fold_left]. rewrite Hfg by now left.
  apply IH. intros b y Hy. apply Hfg. now right.
Qed.

(** ** Index expressions inside a valid view *)

Lemma idx2_offset2 (rows cols stride r c k : Z) :
  valid_view2 rows cols stride ->
  0 <= r < rows -> 0 <= c < cols -> 0 <= k < 2 ->
  idx2 r stride c k = offset2 r stride c k.
Proof.
  unfold valid_view2, U32.in_range, idx2, offset2, U32.add, U32.mul.
  intros (Hr & Hc & Hs & Hcs & Hfit) Hrr Hcc Hk.
  specialize (Hfit r c Hrr Hcc).
  assert (0 <= r * stride) as H0 by nia.
  rewrite (wrap_small (r * stride)) by (unfold U32.in_range; lia).
  rewrite (wrap_small (r * stride + c)) by (unfold U32.in_range; lia).
  rewrite (wrap_small ((r * stride + c) * 2)) by (unfold U32.in_range; lia).
  apply wrap_small. unfold U32.in_range. lia.
Qed.

Lemma offset2_inj (stride r c k r' c' k' : Z) :
  0 <= c < stride -> 0 <= c' < stride -> 0 <= k < 2 -> 0 <= k' < 2 ->
  offset2 r stride c k = offset2 r' stride c' k' ->
  r = r' /\ c = c' /\ k = k'.
Proof.
  unfold offset2. intros Hc Hc' Hk Hk' He.
  assert (k = k') as Hkk by lia. subst k'.
  assert (r * stride + c = r' * stride + c') as He' by lia.
  assert (r = r') as Hrr by nia. subst r'. lia.
Qed.

Lemma idx1_offset1 (rows cols stride r c : Z) :
  valid_view1 rows cols stride ->
  0 <= r < rows -> 0 <= c < cols ->
  idx1 r stride c = offset1 r stride c.
Proof.
  unfold valid_view1, U32.in_range, idx1, offset1, U32.add, U32.mul.
  intros (Hr & Hc & Hs & Hcs & Hfit) Hrr Hcc.
  specialize (Hfit r c Hrr Hcc).
  assert (0 <= r * stride) as H0 by nia.
  rewrite (wrap_small (r * stride)) by (unfold U32.in_range; lia).
  apply wrap_small. unfold U32.in_range. lia.
Qed.

Lemma offset1_inj (stride r c r' c' : Z) :
  0 <= c < stride -> 0 <= c' < stride ->
  offset1 r stride c = offset1 r' stride c' ->
  r = r' /\ c = c'.
Proof.
  unfold offset1. intros Hc Hc' He.
  assert (r = r') as Hrr by nia. subst r'. lia.
Qed.

(** ** The complex matrix product *)

Section MatMult.

Variables pSrcA pSrcB M N O strideA strideB strideC pDstC : Z.

Lemma mm_total (fuel : nat) (h : mem) :
  U32.in_range M -> U32.in_range N -> U32.in_range O ->
  enough fuel M -> enough fuel N -> enough fuel O ->
  plp_mat_mult_cmplx_stride_f32s_xpulpv2 fuel
    pSrcA pSrcB M N O strideA strideB strideC pDstC h
  = Some (mm_all pSrcA pSrcB M N O strideA strideB strideC pDstC h).
Proof.
  intros HM HN HO FM FN FO.
  unfold plp_mat_mult_cmplx_stride_f32s_xpulpv2, mm_all.
  apply for_u32_range; auto. intros m s.
  unfold mm_row. apply for_u32_range; auto. intros o s'.
  rewrite (for_u32_range _
             (fun n acc => cmac s' pSrcA pSrcB strideA strideB m o n acc))
    by auto.
  unfold mm_cell, mm_dot.
  now destruct (fold_left _ (range N) (F32.zero, F32.zero)).
Qed.

Lemma mm_dot_ref (h : mem) (m o : Z) :
  valid_view2 M N strideA -> valid_view2 N O strideB ->
  0 <= m < M -> 0 <= o < O ->
  mm_dot pSrcA pSrcB N strideA strideB m o h
  = ref_product h pSrcA pSrcB N strideA strideB m o.
Proof.
  intros HA HB Hm Ho. unfold mm_dot, ref_product.
  apply fold_left_ext_in. intros [re im] n Hn. apply in_range_iff in Hn.
  unfold cmac, cmplx_mac, cmplx_at, load. cbn [fst snd].
  rewrite !(idx2_offset2 M N strideA) by (auto; lia).
  rewrite !(idx2_offset2 N O strideB) by (auto; lia).
  reflexivity.
Qed.

Lemma ref_product_agree (s h : mem) (m o : Z) :
  (forall a, in_view2 pSrcA M N strideA a -> s a = h a) ->
  (forall a, in_view2 pSrcB N O strideB a -> s a = h a) ->
  0 <= m < M -> 0 <= o < O ->
  ref_product s pSrcA pSrcB N strideA strideB m o
  = ref_product h pSrcA pSrcB N strideA strideB m o.
Proof.
  intros HA HB Hm Ho. unfold ref_product.
  apply fold_left_ext_in. intros acc n Hn. apply in_range_iff in Hn.
  unfold cmplx_at.
  rewrite (HA (pSrcA + offset2 m strideA n 0)),
          (HA (pSrcA + offset2 m strideA n 1)),
          (HB (pSrcB + offset2 n strideB o 0)),
          (HB (pSrcB + offset2 n strideB o 1)); try reflexivity.
  - exists n, o, 1. repeat split; lia.
  - exists n, o, 0. repeat split; lia.
  - exists m, n, 1. repeat split; lia.
  - exists m, n, 0. repeat split; lia.
Qed.

End MatMult.

Section MatMultViews.

Variables pSrcA pSrcB M N O strideA strideB strideC pDstC : Z.

Hypothesis HC : valid_view2 M O strideC.

Lemma mm_cell_frame (m o : Z) (s : mem) (a : Z) :
  0 <= m < M -> 0 <= o < O ->
  (forall k, 0 <= k < 2 -> a <> pDstC + offset2 m strideC o k) ->
  mm_cell pSrcA pSrcB N strideA strideB strideC pDstC m o s a = s a.
Proof.
  intros Hm Ho Ha. unfold mm_cell.
  rewrite !(idx2_offset2 M O strideC) by (auto; lia).
  rewrite !store_other; auto; apply Ha; lia.
Qed.

Lemma mm_cell_value (m o : Z) (s : mem) :
  0 <= m < M -> 0 <= o < O ->
  mm_cell pSrcA pSrcB N strideA strideB strideC pDstC m o s
    (pDstC + offset2 m strideC o 0)
  = fst (mm_dot pSrcA pSrcB N strideA strideB m o s) /\
  mm_cell pSrcA pSrcB N strideA strideB strideC pDstC m o s
    (pDstC + offset2 m strideC o 1)
  = snd (mm_dot pSrcA pSrcB N strideA strideB m o s).
Proof.
  intros Hm Ho. unfold mm_cell.
  rewrite !(idx2_offset2 M O strideC) by (auto; lia). split.
  - rewrite store_other by (unfold offset2; lia). apply store_same.
  - apply store_same.
Qed.

Lemma mm_row_frame (m : Z) (s : mem) (a : Z) :
  0 <= m < M ->
  (forall o k, 0 <= o < O -> 0 <= k < 2 -> a <> pDstC + offset2 m strideC o k) ->
  mm_row pSrcA pSrcB N O strideA strideB strideC pDstC m s a = s a.
Proof.
  intros Hm Ha. unfold mm_row.
  apply run_frame with
    (D := fun o => 0 <= o < O)
    (fp := fun o a => exists k, 0 <= k < 2 /\ a = pDstC + offset2 m strideC o k).
  - intros o s' a' Ho Hfp. apply mm_cell_frame; auto.
    intros k Hk He. apply Hfp. now exists k.
  - intros o Ho. now apply in_range_iff.
  - intros o Ho (k & Hk & He). apply in_range_iff in Ho.
    now apply (Ha o k).
Qed.

Lemma mm_all_frame (h : mem) (a : Z) :
  ~ in_view2 pDstC M O strideC a ->
  mm_all pSrcA pSrcB M N O strideA strideB strideC pDstC h a = h a.
Proof.
  intros Ha. unfold mm_all.
  apply run_frame with
    (D := fun m => 0 <= m < M)
    (fp := fun m a => exists o k,
             0 <= o < O /\ 0 <= k < 2 /\ a = pDstC + offset2 m strideC o k).
  - intros m s a' Hm Hfp. apply mm_row_frame; auto.
    intros o k Ho Hk He. apply Hfp. now exists o, k.
  - intros m Hm. now apply in_range_iff.
  - intros m Hm (o & k & Ho & Hk & He). apply in_range_iff in Hm.
    apply Ha. now exists m, o, k.
Qed.

Hypothesis HA : valid_view2 M N strideA.
Hypothesis HB : valid_view2 N O strideB.
Hypothesis HCA :
  forall a, in_view2 pDstC M O strideC a -> ~ in_view2 pSrcA M N strideA a.
Hypothesis HCB :
  forall a, in_view2 pDstC M O strideC a -> ~ in_view2 pSrcB N O strideB a.

Lemma mm_row_post (m : Z) (h : mem) :
  0 <= m < M ->
  forall o, 0 <= o < O ->
    mm_row pSrcA pSrcB N O strideA strideB strideC pDstC m h
      (pDstC + offset2 m strideC o 0)
    = fst (ref_product h pSrcA pSrcB N strideA strideB m o) /\
    mm_row pSrcA pSrcB N O strideA strideB strideC pDstC m h
      (pDstC + offset2 m strideC o 1)
    = snd (ref_product h pSrcA pSrcB N strideA strideB m o).
Proof.
  intros Hm o Ho. unfold mm_row.
  assert (cols_lt : O <= strideC) by (destruct HC as (_ & _ & _ & H & _); exact H).
  apply run_post with
    (D := fun o => 0 <= o < O)
    (fp := fun o a => exists k, 0 <= k < 2 /\ a = pDstC + offset2 m strideC o k)
    (R := fun a => in_view2 pSrcA M N strideA a \/ in_view2 pSrcB N O strideB a)
    (Q := fun o s =>
            s (pDstC + offset2 m strideC o 0)
            = fst (ref_product h pSrcA pSrcB N strideA strideB m o) /\
            s (pDstC + offset2 m strideC o 1)
            = snd (ref_product h pSrcA pSrcB N strideA strideB m o)).
  - intros i s a Hi Hfp. apply mm_cell_frame; auto.
    intros k Hk He. apply Hfp. now exists k.
  - intros i s Hi Hs.
    rewrite <- (ref_product_agree pSrcA pSrcB M N O strideA strideB s h) by auto.
    rewrite <- (mm_dot_ref pSrcA pSrcB M N O strideA strideB) by auto.
    now apply mm_cell_value.
  - intros i s s' Hi [Hre Him] Hs. split.
    + rewrite Hs; [assumption | exists 0; split; [lia | reflexivity]].
    + rewrite Hs; [assumption | exists 1; split; [lia | reflexivity]].
  - intros i j a Hi Hj (k & Hk & ->) (k' & Hk' & He).
    assert (offset2 m strideC i k = offset2 m strideC j k') as He' by lia.
    apply offset2_inj in He'; try lia.
  - intros i a Hi (k & Hk & ->) [HinA | HinB].
    + apply (HCA (pDstC + offset2 m strideC i k)); auto. now exists m, i, k.
    + apply (HCB (pDstC + offset2 m strideC i k)); auto. now exists m, i, k.
  - intros i Hi. now apply in_range_iff.
  - apply NoDup_range.
  - now apply in_range_iff.
Qed.

Lemma mm_all_post (h : mem) :
  forall m o, 0 <= m < M -> 0 <= o < O ->
    mm_all pSrcA pSrcB M N O strideA strideB strideC pDstC h
      (pDstC + offset2 m strideC o 0)
    = fst (ref_product h pSrcA pSrcB N strideA strideB m o) /\
    mm_all pSrcA pSrcB M N O strideA strideB strideC pDstC h
      (pDstC + offset2 m strideC o 1)
    = snd (ref_product h pSrcA pSrcB N strideA strideB m o).
Proof.
  intros m o Hm Ho. unfold mm_all.
  assert (cols_lt : O <= strideC) by (destruct HC as (_ & _ & _ & H & _); exact H).
  revert o Ho.
  apply run_post with
    (D := fun m => 0 <= m < M)
    (fp := fun m a => exists o k,
             0 <= o < O /\ 0 <= k < 2 /\ a = pDstC + offset2 m strideC o k)
    (R := fun a => in_view2 pSrcA M N strideA a \/ in_view2 pSrcB N O strideB a)
    (Q := fun m s => forall o, 0 <= o < O ->
            s (pDstC + offset2 m strideC o 0)
            = fst (ref_product h pSrcA pSrcB N strideA strideB m o) /\
            s (pDstC + offset2 m strideC o 1)
            = snd (ref_product h pSrcA pSrcB N strideA strideB m o)).
  - intros i s a Hi Hfp. apply mm_row_frame; auto.
    intros o k Ho Hk He. apply Hfp. now exists o, k.
  - intros i s Hi Hs o Ho.
    rewrite <- (ref_product_agree pSrcA pSrcB M N O strideA strideB s h) by auto.
    now apply mm_row_post.
  - intros i s s' Hi HQ Hs o Ho. destruct (HQ o Ho) as [Hre Him]. split.
    + rewrite Hs; [assumption | exists o, 0; repeat split; lia].
    + rewrite Hs; [assumption | exists o, 1; repeat split; lia].
  - intros i j a Hi Hj (o & k & Ho & Hk & ->) (o' & k' & Ho' & Hk' & He).
    assert (offset2 i strideC o k = offset2 j strideC o' k') as He' by lia.
    apply offset2_inj in He'; lia.
  - intros i a Hi (o & k & Ho & Hk & ->) [HinA | HinB].
    + apply (HCA (pDstC + offset2 i strideC o k)); auto. now exists i, o, k.
    + apply (HCB (pDstC + offset2 i strideC o k)); auto. now exists i, o, k.
  - intros i Hi. now apply in_range_iff.
  - apply NoDup_range.
  - now apply in_range_iff.
Qed.

End MatMultViews.

Lemma mm_cell_empty (pSrcA pSrcB strideA strideB strideC pDstC m o : Z) (s : mem) :
  mm_cell pSrcA pSrcB 0 strideA strideB strideC pDstC m o s
  = store (store s pDstC (idx2 m strideC o 0) F32.zero)
          pDstC (idx2 m strideC o 1) F32.zero.
Proof. reflexivity. Qed.

Lemma mm_cell_empty_zero (pSrcA pSrcB strideA strideB strideC pDstC m o k : Z) (s : mem) :
  0 <= k < 2 ->
  mm_cell pSrcA pSrcB 0 strideA strideB strideC pDstC m o s
    (pDstC + idx2 m strideC o k) = F32.zero.
Proof.
  intros Hk. rewrite mm_cell_empty. unfold store.
  assert (k = 0 \/ k = 1) as [-> | ->] by lia.
  - rewrite Z.eqb_refl. now destruct (_ =? _).
  - now rewrite Z.eqb_refl.
Qed.

Lemma mm_cell_empty_writes_zero (pSrcA pSrcB strideA strideB strideC pDstC m o : Z) :
  writes_zero (mm_cell pSrcA pSrcB 0 strideA strideB strideC pDstC m o).
Proof.
  intros s a. rewrite mm_cell_empty. unfold store.
  destruct (a =? _); [now right|]. destruct (a =? _); [now right | now left].
Qed.

Lemma mm_row_empty_writes_zero (pSrcA pSrcB O strideA strideB strideC pDstC m : Z) :
  writes_zero (mm_row pSrcA pSrcB 0 O strideA strideB strideC pDstC m).
Proof.
  unfold mm_row.
  apply (writes_zero_fold
           (fun o => mm_cell pSrcA pSrcB 0 strideA strideB strideC pDstC m o)).
  intros o _. apply mm_cell_empty_writes_zero.
Qed.

Lemma mm_all_empty_zero (pSrcA pSrcB M O strideA strideB strideC pDstC : Z)
    (h : mem) (m o k : Z) :
  0 <= m < M -> 0 <= o < O -> 0 <= k < 2 ->
  mm_all pSrcA pSrcB M 0 O strideA strideB strideC pDstC h
    (pDstC + idx2 m strideC o k) = F32.zero.
Proof.
  intros Hm Ho Hk. unfold mm_all.
  apply (zero_after
           (fun m => mm_row pSrcA pSrcB 0 O strideA strideB strideC pDstC m))
    with (i := m).
  - intros j _. apply mm_row_empty_writes_zero.
  - now apply in_range_iff.
  - intros s. unfold mm_row.
    apply (zero_after
             (fun o => mm_cell pSrcA pSrcB 0 strideA strideB strideC pDstC m o))
      with (i := o).
    + intros j _. apply mm_cell_empty_writes_zero.
    + now apply in_range_iff.
    + intros s'. now apply mm_cell_empty_zero.
Qed.

(** ** Properties of the complex matrix product *)

(** C1.  For valid views (dimensions and strides in [uint32_t], each stride
    at least the width of its view, each view indexable in 32 bits) and a
    destination view that overlaps neither source view, the kernel, given
    enough fuel, returns, and the store it returns holds at the destination
    cell [(m, o)], at the flat offset [(m * strideC + o) * 2] (real part)
    and the next one (imaginary part), the reference product: the sum over
    [n] of [A[m,n] * B[n,o]] accumulated from zero as
    [sum_re += a_re*b_re - a_im*b_im], [sum_im += a_re*b_im + a_im*b_re]. *)
Theorem mat_mult_cmplx_stride_reference
    (fuel : nat) (pSrcA pSrcB M N O strideA strideB strideC pDstC : Z) (h : mem) :
  valid_view2 M N strideA -> valid_view2 N O strideB -> valid_view2 M O strideC ->
  (forall a, in_view2 pDstC M O strideC a -> ~ in_view2 pSrcA M N strideA a) ->
  (forall a, in_view2 pDstC M O strideC a -> ~ in_view2 pSrcB N O strideB a) ->
  enough fuel M -> enough fuel N -> enough fuel O ->
  exists h',
    plp_mat_mult_cmplx_stride_f32s_xpulpv2 fuel
      pSrcA pSrcB M N O strideA strideB strideC pDstC h = Some h' /\
    forall m o, 0 <= m < M -> 0 <= o < O ->
      h' (pDstC + offset2 m strideC o 0)
      = fst (ref_product h pSrcA pSrcB N strideA strideB m o) /\
      h' (pDstC + offset2 m strideC o 1)
      = snd (ref_product h pSrcA pSrcB N strideA strideB m o).
Proof.
  intros HA HB HC HCA HCB FM FN FO.
  exists (mm_all pSrcA pSrcB M N O strideA strideB strideC pDstC h). split.
  - apply mm_total; auto.
    + now destruct HA.
    + now destruct HB.
    + now destruct HC as (_ & H & _).
  - intros m o Hm Ho. now apply mm_all_post.
Qed.

(** C2.  With [N = 0] the kernel returns (the empty reduction is no error)
    and every output element it addresses, real and imaginary part, holds
    positive zero, for every [M], [O], stride and pointer; in a valid
    destination view these are the cells at the offsets
    [(m * strideC + o) * 2] and the next ones. *)
Theorem mat_mult_cmplx_stride_empty_reduction
    (fuel : nat) (pSrcA pSrcB M O strideA strideB strideC pDstC : Z) (h : mem) :
  U32.in_range M -> U32.in_range O -> enough fuel M -> enough fuel O ->
  exists h',
    plp_mat_mult_cmplx_stride_f32s_xpulpv2 fuel
      pSrcA pSrcB M 0 O strideA strideB strideC pDstC h = Some h' /\
    (forall m o k, 0 <= m < M -> 0 <= o < O -> 0 <= k < 2 ->
       h' (pDstC + idx2 m strideC o k) = F32.zero) /\
    (valid_view2 M O strideC ->
     forall m o k, 0 <= m < M -> 0 <= o < O -> 0 <= k < 2 ->
       h' (pDstC + offset2 m strideC o k) = F32.zero).
Proof.
  intros HM HO FM FO.
  exists (mm_all pSrcA pSrcB M 0 O strideA strideB strideC pDstC h).
  split; [|split].
  - apply mm_total; auto.
    + unfold U32.in_range, U32.modulus. lia.
    + unfold enough in *. simpl. lia.
  - intros m o k Hm Ho Hk. now apply mm_all_empty_zero.
  - intros HC m o k Hm Ho Hk.
    rewrite <- (idx2_offset2 M O strideC) by auto.
    now apply mm_all_empty_zero.
Qed.

(** C8.  [A = [[1+2i]]], [B = [[3+4i]]], both 1 x 1 with stride 1: the
    kernel stores [-5] and [10] in the real and imaginary part of the one
    destination element. *)
Theorem mat_mult_cmplx_stride_1x1
    (fuel : nat) (pSrcA pSrcB pDstC : Z) (h : mem) :
  enough fuel 1 ->
  h (pSrcA + 0) = F32.of_Z 1 -> h (pSrcA + 1) = F32.of_Z 2 ->
  h (pSrcB + 0) = F32.of_Z 3 -> h (pSrcB + 1) = F32.of_Z 4 ->
  exists h',
    plp_mat_mult_cmplx_stride_f32s_xpulpv2 fuel
      pSrcA pSrcB 1 1 1 1 1 1 pDstC h = Some h' /\
    h' (pDstC + 0) = F32.of_Z (-5) /\
    h' (pDstC + 1) = F32.of_Z 10.
Proof.
  intros Hf Ha0 Ha1 Hb0 Hb1.
  exists (mm_all pSrcA pSrcB 1 1 1 1 1 1 pDstC h). split.
  - apply mm_total; auto; unfold U32.in_range, U32.modulus; lia.
  - unfold mm_all, mm_row, mm_cell, mm_dot.
    change (range 1) with [0]. cbn [fold_left]. unfold cmac, load.
    change (idx2 0 1 0 0) with 0. change (idx2 0 1 0 1) with 1.
    rewrite Ha0, Ha1, Hb0, Hb1. split.
    + rewrite store_other by lia. rewrite store_same. reflexivity.
    + rewrite store_same. reflexivity.
Qed.

(** C9.  The kernel writes inside the destination view only: every cell
    outside the [M * O] complex elements at the offsets
    [(m * strideC + o) * 2] and [(m * strideC + o) * 2 + 1] keeps its value,
    among them the cells of the stride padding of the destination and, the
    destination view overlapping neither, the cells of [A] and of [B]. *)
Theorem mat_mult_cmplx_stride_frame
    (fuel : nat) (pSrcA pSrcB M N O strideA strideB strideC pDstC : Z) (h : mem) :
  valid_view2 M O strideC -> U32.in_range N ->
  (forall a, in_view2 pDstC M O strideC a -> ~ in_view2 pSrcA M N strideA a) ->
  (forall a, in_view2 pDstC M O strideC a -> ~ in_view2 pSrcB N O strideB a) ->
  enough fuel M -> enough fuel N -> enough fuel O ->
  exists h',
    plp_mat_mult_cmplx_stride_f32s_xpulpv2 fuel
      pSrcA pSrcB M N O strideA strideB strideC pDstC h = Some h' /\
    (forall a, ~ in_view2 pDstC M O strideC a -> h' a = h a) /\
    (forall m c k, 0 <= m < M -> O <= c < strideC -> 0 <= k < 2 ->
       h' (pDstC + offset2 m strideC c k) = h (pDstC + offset2 m strideC c k)) /\
    (forall a, in_view2 pSrcA M N strideA a -> h' a = h a) /\
    (forall a, in_view2 pSrcB N O strideB a -> h' a = h a).
Proof.
  intros HC HN HCA HCB FM FN FO.
  exists (mm_all pSrcA pSrcB M N O strideA strideB strideC pDstC h).
  assert (forall a, ~ in_view2 pDstC M O strideC a ->
            mm_all pSrcA pSrcB M N O strideA strideB strideC pDstC h a = h a)
    as Hframe by (intros a Ha; now apply mm_all_frame).
  split; [|split; [|split; [|split]]].
  - apply mm_total; auto.
    + now destruct HC.
    + now destruct HC as (_ & H & _).
  - exact Hframe.
  - intros m c k Hm Hc Hk. apply Hframe.
    intros (r & c' & k' & Hr & Hc' & Hk' & He).
    destruct HC as (_ & HO & _ & Hcs & _). unfold U32.in_range in HO.
    assert (offset2 m strideC c k = offset2 r strideC c' k') as He' by lia.
    apply offset2_inj in He'; lia.
  - intros a Ha. apply Hframe. intros HaC. now apply (HCA a).
  - intros a Ha. apply Hframe. intros HaC. now apply (HCB a).
Qed.

(** ** The row loop of the parallel kernels *)

Lemma trip_le (i bound step : Z) :
  0 <= i -> 0 <= bound -> 0 < step ->
  (trip i bound step <= Z.to_nat bound)%nat.
Proof.
  intros Hi Hb Hs. unfold trip.
  assert ((bound - i + step - 1) / step < bound + 1) as Hq.
  { apply Z.div_lt_upper_bound; nia. }
  lia.
Qed.

Lemma in_worker_rows (w M nPE r : Z) :
  0 <= w < nPE ->
  In r (steps (trip w M nPE) w nPE) <-> 0 <= r < M /\ r mod nPE = w.
Proof.
  intros Hw. rewrite in_steps. unfold trip.
  set (q := (M - w + nPE - 1) / nPE).
  assert (nPE * q <= M - w + nPE - 1 < nPE * (q + 1)) as Hq.
  { unfold q. split.
    - apply Z.mul_div_le. lia.
    - rewrite Z.mul_add_distr_l, Z.mul_1_r.
      pose proof (Z.mod_pos_bound (M - w + nPE - 1) nPE ltac:(lia)) as Hm.
      rewrite (Z.div_mod (M - w + nPE - 1) nPE) at 1 by lia. lia. }
  split.
  - intros (t & Ht & ->). split.
    + assert (t + 1 <= q) by lia. nia.
    + rewrite Z.mod_add by lia. apply Z.mod_small. lia.
  - intros (Hr & Hmod). exists (r / nPE).
    pose proof (Z.div_mod r nPE ltac:(lia)) as Hdm. rewrite Hmod in Hdm.
    assert (0 <= r / nPE) by (apply Z.div_pos; lia).
    split; [|lia].
    split; [assumption|].
    assert (r / nPE < q) by nia. lia.
Qed.

Lemma fold_left_snoc {A : Type} (l acc : list A) :
  fold_left (fun rows m => rows ++ [m]) l acc = acc ++ l.
Proof.
  revert acc. induction l as [|x l IH]; intros acc; cbn [fold_left].
  - now rewrite app_nil_r.
  - rewrite IH, <- app_assoc. reflexivity.
Qed.

Lemma steps_length (k : nat) (i step : Z) : length (steps k i step) = k.
Proof. revert i. induction k as [|k IH]; intros i; simpl; congruence. Qed.

Lemma worker_rows_total (fuel : nat) (w m_rows pool : Z) :
  U32.in_range m_rows -> 0 <= w < pool -> m_rows + pool <= U32.modulus ->
  enough fuel m_rows ->
  worker_rows fuel w m_rows pool = Some (steps (trip w m_rows pool) w pool).
Proof.
  unfold U32.in_range, enough. intros HM Hw Hfit Hf. unfold worker_rows.
  rewrite wrap_small by (unfold U32.in_range; lia).
  rewrite (for_u32_run _ (fun m rows => rows ++ [m])); auto; try lia.
  - now rewrite fold_left_snoc.
  - pose proof (trip_le w m_rows pool). lia.
Qed.

(** ** The parallel matrix scale *)

Section Scale.

Variable a : plp_mat_scale_stride_instance_f32.

Lemma sc_total (fuel : nat) (w : Z) (h : mem) :
  U32.in_range (M a) -> U32.in_range (N a) -> U32.in_range w ->
  1 <= nPE a -> M a + nPE a <= U32.modulus ->
  enough fuel (M a) -> enough fuel (N a) ->
  plp_mat_scale_stride_f32p_xpulpv2 fuel w a h = Some (sc_worker a w h).
Proof.
  unfold enough. intros HM HN Hw Hp Hfit FM FN.
  unfold plp_mat_scale_stride_f32p_xpulpv2, sc_worker.
  rewrite wrap_small by assumption.
  unfold U32.in_range in *.
  apply for_u32_run; try lia.
  - intros m s. unfold sc_row. now apply for_u32_range.
  - pose proof (trip_le w (M a) (nPE a)). lia.
Qed.

Hypothesis Hsrc : valid_view1 (M a) (N a) (strideSrc a).
Hypothesis Hdst : valid_view1 (M a) (N a) (strideDst a).
Hypothesis Hsep :
  forall x, in_view1 (pDst a) (M a) (N a) (strideDst a) x ->
            ~ in_view1 (pSrc a) (M a) (N a) (strideSrc a) x.

Lemma sc_cell_frame (m n : Z) (s : mem) (x : Z) :
  0 <= m < M a -> 0 <= n < N a ->
  x <> pDst a + offset1 m (strideDst a) n ->
  sc_cell a m n s x = s x.
Proof.
  intros Hm Hn Hx. unfold sc_cell.
  rewrite (idx1_offset1 (M a) (N a) (strideDst a)) by auto.
  now apply store_other.
Qed.

Lemma sc_cell_value (m n : Z) (s : mem) :
  0 <= m < M a -> 0 <= n < N a ->
  sc_cell a m n s (pDst a + offset1 m (strideDst a) n)
  = F32.mul (s (pSrc a + offset1 m (strideSrc a) n)) (scaleFactor a).
Proof.
  intros Hm Hn. unfold sc_cell, load.
  rewrite (idx1_offset1 (M a) (N a) (strideDst a)) by auto.
  rewrite (idx1_offset1 (M a) (N a) (strideSrc a)) by auto.
  apply store_same.
Qed.

Lemma sc_row_frame (m : Z) (s : mem) (x : Z) :
  0 <= m < M a ->
  (forall n, 0 <= n < N a -> x <> pDst a + offset1 m (strideDst a) n) ->
  sc_row a m s x = s x.
Proof.
  intros Hm Hx. unfold sc_row.
  apply run_frame with
    (D := fun n => 0 <= n < N a)
    (fp := fun n x => x = pDst a + offset1 m (strideDst a) n).
  - intros n s' x' Hn Hfp. now apply sc_cell_frame.
  - intros n Hn. now apply in_range_iff.
  - intros n Hn. apply Hx. now apply in_range_iff.
Qed.

Lemma sc_row_post (m : Z) (h : mem) :
  0 <= m < M a ->
  forall n, 0 <= n < N a ->
    sc_row a m h (pDst a + offset1 m (strideDst a) n)
    = F32.mul (h (pSrc a + offset1 m (strideSrc a) n)) (scaleFactor a).
Proof.
  intros Hm n Hn. unfold sc_row.
  assert (N a <= strideDst a) as Hcs by (destruct Hdst as (_ & _ & _ & H & _); exact H).
  apply run_post with
    (D := fun n => 0 <= n < N a)
    (fp := fun n x => x = pDst a + offset1 m (strideDst a) n)
    (R := fun x => in_view1 (pSrc a) (M a) (N a) (strideSrc a) x)
    (Q := fun n s =>
            s (pDst a + offset1 m (strideDst a) n)
            = F32.mul (h (pSrc a + offset1 m (strideSrc a) n)) (scaleFactor a)).
  - intros i s x Hi Hfp. now apply sc_cell_frame.
  - intros i s Hi Hs. rewrite sc_cell_value by auto.
    rewrite Hs; [reflexivity | now exists m, i].
  - intros i s s' Hi HQ Hs. now rewrite Hs.
  - intros i j x Hi Hj -> He.
    assert (offset1 m (strideDst a) i = offset1 m (strideDst a) j) as He' by lia.
    apply offset1_inj in He'; lia.
  - intros i x Hi -> Hin. apply (Hsep (pDst a + offset1 m (strideDst a) i)); auto.
    now exists m, i.
  - intros i Hi. now apply in_range_iff.
  - apply NoDup_range.
  - now apply in_range_iff.
Qed.

(** Any sequence of distinct rows. *)

Lemma sc_rows_frame (l : list Z) (h : mem) (x : Z) :
  (forall m, In m l -> 0 <= m < M a) ->
  (forall m n, In m l -> 0 <= n < N a ->
     x <> pDst a + offset1 m (strideDst a) n) ->
  fold_left (fun s m => sc_row a m s) l h x = h x.
Proof.
  intros Hl Hx.
  apply run_frame with
    (D := fun m => In m l)
    (fp := fun m x => exists n,
             0 <= n < N a /\ x = pDst a + offset1 m (strideDst a) n).
  - intros m s x' Hm Hfp. apply sc_row_frame; auto.
    intros n Hn He. apply Hfp. now exists n.
  - auto.
  - intros m Hm (n & Hn & He). now apply (Hx m n).
Qed.

Lemma sc_rows_post (l : list Z) (h : mem) :
  (forall m, In m l -> 0 <= m < M a) -> NoDup l ->
  forall m n, In m l -> 0 <= n < N a ->
    fold_left (fun s m => sc_row a m s) l h (pDst a + offset1 m (strideDst a) n)
    = F32.mul (h (pSrc a + offset1 m (strideSrc a) n)) (scaleFactor a).
Proof.
  intros Hl Hnd m n Hm. revert n.
  assert (N a <= strideDst a) as Hcs by (destruct Hdst as (_ & _ & _ & H & _); exact H).
  apply run_post with
    (D := fun m => In m l)
    (fp := fun m x => exists n,
             0 <= n < N a /\ x = pDst a + offset1 m (strideDst a) n)
    (R := fun x => in_view1 (pSrc a) (M a) (N a) (strideSrc a) x)
    (Q := fun m s => forall n, 0 <= n < N a ->
            s (pDst a + offset1 m (strideDst a) n)
            = F32.mul (h (pSrc a + offset1 m (strideSrc a) n)) (scaleFactor a)).
  - intros i s x Hi Hfp. apply sc_row_frame; auto.
    intros n Hn He. apply Hfp. now exists n.
  - intros i s Hi Hs n Hn. rewrite sc_row_post by auto.
    rewrite Hs; [reflexivity | exists i, n; auto].
  - intros i s s' Hi HQ Hs n Hn. rewrite Hs; [now apply HQ | now exists n].
  - intros i j x Hi Hj (n & Hn & ->) (n' & Hn' & He).
    assert (offset1 i (strideDst a) n = offset1 j (strideDst a) n') as He' by lia.
    apply offset1_inj in He'; lia.
  - intros i x Hi (n & Hn & ->) Hin.
    apply (Hsep (pDst a + offset1 i (strideDst a) n)); auto.
    exists i, n. auto.
  - auto.
  - assumption.
  - assumption.
Qed.

End Scale.

Lemma in_view1_dec (p rows cols stride x : Z) :
  cols <= stride ->
  in_view1 p rows cols stride x \/ ~ in_view1 p rows cols stride x.
Proof.
  intros Hcs. destruct (Z_le_dec stride 0) as [Hs|Hs].
  - right. intros (r & c & Hr & Hc & _). lia.
  - pose proof (Z.div_mod (x - p) stride ltac:(lia)) as Hdm.
    pose proof (Z.mod_pos_bound (x - p) stride ltac:(lia)) as Hmb.
    destruct (Z_le_dec 0 ((x - p) / stride)) as [H0|H0];
      [destruct (Z_lt_dec ((x - p) / stride) rows) as [H1|H1];
       [destruct (Z_lt_dec ((x - p) mod stride) cols) as [H2|H2]|]|].
    + left. exists ((x - p) / stride), ((x - p) mod stride).
      unfold offset1. repeat split; lia.
    + right. intros (r & c & Hr & Hc & He). unfold offset1 in He.
      assert ((x - p) mod stride = c) as Hc'.
      { symmetry. apply (Z.mod_unique (x - p) stride r c); lia. }
      lia.
    + right. intros (r & c & Hr & Hc & He). unfold offset1 in He.
      assert ((x - p) / stride = r) as Hr'.
      { symmetry. apply (Z.div_unique (x - p) stride r c); lia. }
      lia.
    + right. intros (r & c & Hr & Hc & He). unfold offset1 in He.
      assert ((x - p) / stride = r) as Hr'.
      { symmetry. apply (Z.div_unique (x - p) stride r c); lia. }
      lia.
Qed.

Lemma scaled_from_unique (a : plp_mat_scale_stride_instance_f32) (h h1 h2 : mem) :
  N a <= strideDst a ->
  scaled_from a h h1 -> scaled_from a h h2 -> forall x, h1 x = h2 x.
Proof.
  intros Hcs [F1 P1] [F2 P2] x.
  destruct (in_view1_dec (pDst a) (M a) (N a) (strideDst a) x Hcs)
    as [(m & n & Hm & Hn & ->) | Hout].
  - now rewrite P1, P2.
  - now rewrite F1, F2.
Qed.

Lemma valid_job_single (a : plp_mat_scale_stride_instance_f32) :
  valid_job a -> valid_job (single_core a).
Proof.
  intros (Hs & Hd & Hp & Hfit & Hsep). unfold valid_job, single_core.
  cbn [pSrc M N strideSrc strideDst nPE pDst].
  destruct Hs as (HM & Hs'). pose proof HM as [HM0 HM1].
  repeat split; try assumption; try lia; try apply Hs'; try apply Hd.
Qed.

Section Workers.

Variable a : plp_mat_scale_stride_instance_f32.
Hypothesis Hjob : valid_job a.

Lemma job_rows_in_range (w m : Z) :
  0 <= w < nPE a ->
  In m (steps (trip w (M a) (nPE a)) w (nPE a)) -> 0 <= m < M a.
Proof. intros Hw Hm. now apply in_worker_rows in Hm. Qed.

Lemma sc_worker_frame (w : Z) (h : mem) (x : Z) :
  0 <= w < nPE a ->
  (forall m n, In m (steps (trip w (M a) (nPE a)) w (nPE a)) -> 0 <= n < N a ->
     x <> pDst a + offset1 m (strideDst a) n) ->
  sc_worker a w h x = h x.
Proof.
  destruct Hjob as (Hs & Hd & Hp & Hfit & Hsep).
  intros Hw Hx. unfold sc_worker. apply sc_rows_frame; auto.
  intros m Hm. now apply (job_rows_in_range w).
Qed.

Lemma sc_worker_post (w : Z) (h : mem) (m n : Z) :
  0 <= w < nPE a ->
  In m (steps (trip w (M a) (nPE a)) w (nPE a)) -> 0 <= n < N a ->
  sc_worker a w h (pDst a + offset1 m (strideDst a) n)
  = F32.mul (h (pSrc a + offset1 m (strideSrc a) n)) (scaleFactor a).
Proof.
  destruct Hjob as (Hs & Hd & Hp & Hfit & Hsep).
  intros Hw Hm Hn. unfold sc_worker. apply sc_rows_post; auto.
  - intros m' Hm'. now apply (job_rows_in_range w).
  - apply NoDup_steps. lia.
Qed.

Lemma workers_scaled (ws : list Z) (h : mem) :
  Permutation ws (worker_ids (nPE a)) ->
  scaled_from a h (fold_left (fun s w => sc_worker a w s) ws h).
Proof.
  intros Hperm.
  assert (forall w, In w ws <-> 0 <= w < nPE a) as Hws.
  { intros w. rewrite <- in_range_iff. split; apply Permutation_in;
      [assumption | now apply Permutation_sym]. }
  assert (NoDup ws) as Hnd.
  { apply (Permutation_NoDup (Permutation_sym Hperm)), NoDup_range. }
  destruct Hjob as (Hs & Hd & Hp & Hfit & Hsep).
  assert (N a <= strideDst a) as Hcs by (destruct Hd as (_ & _ & _ & H & _); exact H).
  split.
  - intros x Hx.
    apply run_frame with
      (D := fun w => 0 <= w < nPE a)
      (fp := fun w x => exists m n,
               In m (steps (trip w (M a) (nPE a)) w (nPE a)) /\ 0 <= n < N a /\
               x = pDst a + offset1 m (strideDst a) n).
    + intros w s x' Hw Hfp. apply sc_worker_frame; auto.
      intros m n Hm Hn He. apply Hfp. now exists m, n.
    + intros w Hw. now apply Hws.
    + intros w Hw (m & n & Hm & Hn & He). apply Hx. exists m, n.
      apply Hws in Hw. apply job_rows_in_range in Hm; auto.
  - intros m n Hm Hn.
    assert (0 <= m mod nPE a < nPE a) as Hw by (apply Z.mod_pos_bound; lia).
    assert (In m (steps (trip (m mod nPE a) (M a) (nPE a)) (m mod nPE a) (nPE a)))
      as Hrow by (apply in_worker_rows; auto).
    revert m n Hm Hn Hw Hrow.
    enough (forall w, In w ws ->
              forall m n, In m (steps (trip w (M a) (nPE a)) w (nPE a)) ->
                0 <= n < N a ->
                fold_left (fun s w => sc_worker a w s) ws h
                  (pDst a + offset1 m (strideDst a) n)
                = F32.mul (h (pSrc a + offset1 m (strideSrc a) n)) (scaleFactor a))
      as Hall.
    { intros m n Hm Hn Hw Hrow. apply (Hall (m mod nPE a)); auto. now apply Hws. }
    intros w0 Hw0.
    apply run_post with
      (D := fun w => 0 <= w < nPE a)
      (fp := fun w x => exists m n,
               In m (steps (trip w (M a) (nPE a)) w (nPE a)) /\ 0 <= n < N a /\
               x = pDst a + offset1 m (strideDst a) n)
      (R := fun x => in_view1 (pSrc a) (M a) (N a) (strideSrc a) x)
      (Q := fun w s =>
              forall m n, In m (steps (trip w (M a) (nPE a)) w (nPE a)) ->
                0 <= n < N a ->
                s (pDst a + offset1 m (strideDst a) n)
                = F32.mul (h (pSrc a + offset1 m (strideSrc a) n)) (scaleFactor a)).
    + intros w s x Hw Hfp. apply sc_worker_frame; auto.
      intros m n Hm Hn He. apply Hfp. now exists m, n.
    + intros w s Hw Hsrc m n Hm Hn. rewrite sc_worker_post by auto.
      rewrite Hsrc; [reflexivity|]. exists m, n.
      apply job_rows_in_range in Hm; auto.
    + intros w s s' Hw HQ Hsame m n Hm Hn.
      rewrite Hsame; [now apply HQ | now exists m, n].
    + intros w w' x Hw Hw' (m & n & Hm & Hn & ->) (m' & n' & Hm' & Hn' & He).
      assert (offset1 m (strideDst a) n = offset1 m' (strideDst a) n') as He' by lia.
      apply offset1_inj in He'; try lia. destruct He' as [<- _].
      apply in_worker_rows in Hm, Hm'; auto. lia.
    + intros w x Hw (m & n & Hm & Hn & ->) Hin.
      apply (Hsep (pDst a + offset1 m (strideDst a) n)); auto.
      exists m, n. apply job_rows_in_range in Hm; auto.
    + intros w Hw. now apply Hws.
    + assumption.
    + assumption.
Qed.

Lemma run_workers_total (fuel : nat) (ws : list Z) (h : mem) :
  (forall w, In w ws -> 0 <= w < nPE a) ->
  enough fuel (M a) -> enough fuel (N a) ->
  run_workers fuel ws a h = Some (fold_left (fun s w => sc_worker a w s) ws h).
Proof.
  destruct Hjob as (Hs & Hd & Hp & Hfit & Hsep).
  intros Hws FM FN. revert h. induction ws as [|w ws IH]; intros h.
  - reflexivity.
  - cbn [run_workers fold_left]. rewrite sc_total; auto.
    + apply IH. intros w' Hw'. apply Hws. now right.
    + now destruct Hs.
    + now destruct Hs as (_ & H & _).
    + destruct Hs as ([HM0 _] & _). specialize (Hws w (or_introl eq_refl)).
      unfold U32.in_range. lia.
Qed.

End Workers.

Lemma single_core_scaled (a : plp_mat_scale_stride_instance_f32) (h : mem) :
  valid_job a -> scaled_from a h (sc_worker (single_core a) 0 h).
Proof.
  intros Hjob.
  exact (workers_scaled (single_core a) (valid_job_single a Hjob) [0] h
           (Permutation_refl _)).
Qed.

(** A loop whose step is zero never leaves a counter below its bound. *)

Lemma loop_u32_stuck {St : Type} (body : Z -> St -> option St) (i bound : Z) :
  U32.in_range i -> i < bound ->
  forall fuel s, loop_u32 fuel i bound 0 body s = None.
Proof.
  intros Hi Hlt. induction fuel as [|fuel IH]; intros s; [reflexivity|].
  cbn [loop_u32]. destruct (Z.ltb_spec i bound) as [_|Hge]; [|lia].
  destruct (body i s) as [s'|]; [|reflexivity].
  unfold U32.add. rewrite Z.add_0_r, wrap_small by assumption. apply IH.
Qed.

Lemma scale_zero_pool_never_returns
    (a : plp_mat_scale_stride_instance_f32) (core_id : Z) (h : mem) :
  nPE a = 0 -> U32.in_range core_id -> core_id < M a ->
  forall fuel, plp_mat_scale_stride_f32p_xpulpv2 fuel core_id a h = None.
Proof.
  intros Hp Hc Hlt fuel. unfold plp_mat_scale_stride_f32p_xpulpv2, for_u32.
  rewrite Hp, wrap_small by assumption.
  now rewrite loop_u32_stuck.
Qed.

(** ** Properties of the parallel kernel *)


(** C4, as the code has it.  For a pool of [nPE >= 1] workers and a row
    counter that stays below [2^32] ([M + nPE <= 2^32]), each worker's call
    runs the row body on its row list, the row lists of the workers
    [0 .. nPE-1] are pairwise disjoint and cover exactly [[0, M)], and no
    output location is written by two workers: in a valid destination view
    two workers never address the same cell, and in a valid job the call of
    one worker leaves the destination elements of every other worker's
    rows as they were. *)
Theorem parallel_rows_partition
    (fuel : nat) (a : plp_mat_scale_stride_instance_f32) :
  U32.in_range (M a) -> 1 <= nPE a -> M a + nPE a <= U32.modulus ->
  enough fuel (M a) ->
  exists rows : Z -> list Z,
    (forall w, 0 <= w < nPE a ->
       worker_rows fuel w (M a) (nPE a) = Some (rows w)) /\
    (forall w h, 0 <= w < nPE a -> U32.in_range (N a) -> enough fuel (N a) ->
       plp_mat_scale_stride_f32p_xpulpv2 fuel w a h
       = Some (fold_left (fun s m => sc_row a m s) (rows w) h)) /\
    (forall w w' r, 0 <= w < nPE a -> 0 <= w' < nPE a ->
       In r (rows w) -> In r (rows w') -> w = w') /\
    (forall r, 0 <= r < M a <-> exists w, 0 <= w < nPE a /\ In r (rows w)) /\
    (valid_view1 (M a) (N a) (strideDst a) ->
     forall w w' m n m' n', 0 <= w < nPE a -> 0 <= w' < nPE a ->
       In m (rows w) -> In m' (rows w') -> 0 <= n < N a -> 0 <= n' < N a ->
       pDst a + idx1 m (strideDst a) n = pDst a + idx1 m' (strideDst a) n' ->
       w = w') /\
    (valid_job a -> enough fuel (N a) ->
     forall w w' m n h, 0 <= w < nPE a -> 0 <= w' < nPE a -> w <> w' ->
       In m (rows w') -> 0 <= n < N a ->
       exists h',
         plp_mat_scale_stride_f32p_xpulpv2 fuel w a h = Some h' /\
         h' (pDst a + offset1 m (strideDst a) n)
         = h (pDst a + offset1 m (strideDst a) n)).
Proof.
  intros HM Hp Hfit FM.
  exists (fun w => steps (trip w (M a) (nPE a)) w (nPE a)).
  split; [|split; [|split; [|split; [|split]]]].
  - intros w Hw. now apply worker_rows_total.
  - intros w h Hw HN FN. apply sc_total; auto.
    unfold U32.in_range in *. lia.
  - intros w w' r Hw Hw' Hr Hr'.
    apply in_worker_rows in Hr, Hr'; auto. lia.
  - intros r. split.
    + intros Hr. exists (r mod nPE a).
      assert (0 <= r mod nPE a < nPE a) as Hw by (apply Z.mod_pos_bound; lia).
      split; [assumption|]. now apply in_worker_rows.
    + intros (w & Hw & Hr). now apply in_worker_rows in Hr.
  - intros Hd w w' m n m' n' Hw Hw' Hm Hm' Hn Hn' He.
    apply in_worker_rows in Hm, Hm'; auto.
    rewrite !(idx1_offset1 (M a) (N a) (strideDst a)) in He by tauto.
    assert (offset1 m (strideDst a) n = offset1 m' (strideDst a) n') as He' by lia.
    destruct Hd as (_ & _ & _ & Hcs & _).
    apply offset1_inj in He'; try lia.
    destruct He' as [<- _]. lia.
  - intros Hjob FN w w' m n h Hw Hw' Hne Hm Hn.
    exists (sc_worker a w h).
    pose proof Hjob as (Hs & Hd & _).
    assert (N a <= strideDst a) as Hcs
      by (destruct Hd as (_ & _ & _ & H & _); exact H).
    split.
    + destruct Hs as (_ & HN & _). apply sc_total; auto.
      unfold U32.in_range in *. lia.
    + apply sc_worker_frame; auto.
      intros m' n' Hm' Hn' He.
      apply in_worker_rows in Hm, Hm'; auto.
      assert (offset1 m (strideDst a) n = offset1 m' (strideDst a) n') as He'
        by lia.
      apply offset1_inj in He'; try lia.
      destruct He' as [<- _]. lia.
Qed.

(** C5, as the code has it.  For a valid job (valid views that do not
    overlap, a pool of [nPE >= 1] workers and a row counter that stays
    below [2^32]: [M + nPE <= 2^32]), one call of the parallel kernel per
    worker, the workers taken in any order, and the single-core execution
    (one worker, [nPE = 1]) both return, and the two stores they return
    agree on every cell. *)
Theorem parallel_equals_single_core
    (fuel : nat) (a : plp_mat_scale_stride_instance_f32) (ws : list Z) (h : mem) :
  valid_job a -> enough fuel (M a) -> enough fuel (N a) ->
  Permutation ws (worker_ids (nPE a)) ->
  exists hp hs,
    run_workers fuel ws a h = Some hp /\
    plp_mat_scale_stride_f32p_xpulpv2 fuel 0 (single_core a) h = Some hs /\
    (forall x, hp x = hs x) /\
    scaled_from a h hs.
Proof.
  intros Hjob FM FN Hperm.
  exists (fold_left (fun s w => sc_worker a w s) ws h),
         (sc_worker (single_core a) 0 h).
  assert (N a <= strideDst a) as Hcs.
  { destruct Hjob as (_ & (_ & _ & _ & H & _) & _). exact H. }
  split; [|split; [|split]].
  - apply run_workers_total; auto.
    intros w Hw. apply in_range_iff. now apply (Permutation_in w Hperm).
  - destruct Hjob as ((HM & HN & _) & _).
    apply sc_total; auto; cbn [M N nPE single_core];
      unfold U32.in_range, U32.modulus in *; lia.
  - apply (scaled_from_unique a h); auto.
    + now apply workers_scaled.
    + now apply single_core_scaled.
  - now apply single_core_scaled.
Qed.

(** C6, as the code has it.  The kernel has no guard for an empty pool: it
    terminates for every job with [nPE >= 1] whose row counter stays below
    [2^32], whatever the index of the calling core. *)
Theorem parallel_terminates_with_pool
    (fuel : nat) (core_id : Z) (a : plp_mat_scale_stride_instance_f32) (h : mem) :
  U32.in_range (M a) -> U32.in_range (N a) -> U32.in_range core_id ->
  1 <= nPE a -> M a + nPE a <= U32.modulus ->
  enough fuel (M a) -> enough fuel (N a) ->
  exists h', plp_mat_scale_stride_f32p_xpulpv2 fuel core_id a h = Some h'.
Proof.
  intros HM HN Hc Hp Hfit FM FN.
  exists (sc_worker a core_id h). now apply sc_total.
Qed.

(** C6, as stated, fails: with [nPE = 0] and one row, the call of core 0
    returns for no amount of fuel. *)
Lemma parallel_zero_pool_diverges :
  ~ exists fuel h',
      plp_mat_scale_stride_f32p_xpulpv2 fuel 0 job_no_pool (fun _ => F32.zero)
      = Some h'.
Proof.
  intros (fuel & h' & Hrun).
  rewrite scale_zero_pool_never_returns in Hrun; try discriminate.
  - reflexivity.
  - unfold U32.in_range, U32.modulus. lia.
  - cbn. lia.
Qed.

(** A row loop of step 2 below the odd bound [2^32 - 1] never leaves the
    even counters: from [2^32 - 2] it wraps to 0. *)

Lemma loop_u32_even_spins {St : Type} (body : Z -> St -> option St) (bound : Z) :
  bound = 2 ^ 32 - 1 ->
  forall fuel k s, 0 <= k < 2 ^ 31 ->
    loop_u32 fuel (2 * k) bound 2 body s = None.
Proof.
  intros ->. induction fuel as [|fuel IH]; intros k s Hk; [reflexivity|].
  cbn [loop_u32]. destruct (Z.ltb_spec (2 * k) (2 ^ 32 - 1)) as [_|Hge]; [|lia].
  destruct (body (2 * k) s) as [s'|]; [|reflexivity].
  assert (exists k', 0 <= k' < 2 ^ 31 /\ U32.add (2 * k) 2 = 2 * k')
    as (k' & Hk' & ->).
  { destruct (Z.eq_dec k (2 ^ 31 - 1)) as [->|Hne].
    - exists 0. split; [lia | reflexivity].
    - exists (k + 1). split; [lia|]. unfold U32.add.
      rewrite wrap_small by (unfold U32.in_range, U32.modulus; lia). lia. }
  now apply IH.
Qed.


(** C4, as stated, fails at the same job: the workers 1 and 3 both have
    row 1 in their row lists and both write its destination element, the
    cell 101. *)
Lemma parallel_rows_wrap_shared_row :
  worker_rows 10 1 (M job_wrap) (nPE job_wrap) = Some [1] /\
  worker_rows 10 3 (M job_wrap) (nPE job_wrap) = Some [3; 1] /\
  option_map (fun h' => h' 101)
    (plp_mat_scale_stride_f32p_xpulpv2 10 1 job_wrap demo_mem)
  = Some (F32.mul (demo_mem 1) (scaleFactor job_wrap)) /\
  option_map (fun h' => h' 101)
    (plp_mat_scale_stride_f32p_xpulpv2 10 3 job_wrap demo_mem)
  = Some (F32.mul (demo_mem 1) (scaleFactor job_wrap)) /\
  F32.mul (demo_mem 1) (scaleFactor job_wrap) <> demo_mem 101 /\
  ~ (exists rows : Z -> list Z,
       (forall w, 0 <= w < nPE job_wrap ->
          worker_rows 10 w (M job_wrap) (nPE job_wrap) = Some (rows w)) /\
       (forall w w' r, 0 <= w < nPE job_wrap -> 0 <= w' < nPE job_wrap ->
          In r (rows w) -> In r (rows w') -> w = w')).
Proof.
  split; [reflexivity|]. split; [reflexivity|].
  split; [vm_compute; reflexivity|]. split; [vm_compute; reflexivity|].
  split; [vm_compute; discriminate|].
  intros (rows & Hrows & Hdisj).
  assert (0 <= 1 < nPE job_wrap) as H1 by (cbn [nPE job_wrap]; lia).
  assert (0 <= 3 < nPE job_wrap) as H3 by (cbn [nPE job_wrap]; lia).
  pose proof (Hrows 1 H1) as R1. pose proof (Hrows 3 H3) as R3.
  assert (rows 1 = [1]) as E1 by (vm_compute in R1; congruence).
  assert (rows 3 = [3; 1]) as E3 by (vm_compute in R3; congruence).
  assert (1 = 3) as Habs.
  { apply (Hdisj 1 3 1 H1 H3).
    - rewrite E1. now left.
    - rewrite E3. right. now left. }
  discriminate.
Qed.

(** C5, as stated, fails where the row counter passes [2^32]: with
    [2^32 - 1] rows and two workers, a job valid in every other respect,
    the counter of worker 0 goes through the even rows up to [2^32 - 2] and
    wraps to 0, so that its call returns for no amount of fuel and the
    parallel execution produces no store, while the single-core execution
    of the same job returns. *)
Lemma parallel_wrap_never_returns :
  (valid_view1 (M job_spin) (N job_spin) (strideSrc job_spin) /\
   valid_view1 (M job_spin) (N job_spin) (strideDst job_spin) /\
   1 <= nPE job_spin) /\
  (exists hs,
     plp_mat_scale_stride_f32p_xpulpv2
       (S (Z.to_nat (M job_spin))) 0 (single_core job_spin) demo_mem = Some hs) /\
  ~ (exists fuel hp,
       run_workers fuel (worker_ids (nPE job_spin)) job_spin demo_mem = Some hp).
Proof.
  split; [|split].
  - unfold valid_view1, U32.in_range, U32.modulus, offset1.
    cbn [M N strideSrc strideDst nPE job_spin]. repeat split; lia.
  - exists (sc_worker (single_core job_spin) 0 demo_mem).
    apply sc_total; unfold U32.in_range, U32.modulus, enough;
      cbn [M N nPE single_core job_spin]; lia.
  - intros (fuel & hp & Hrun).
    change (worker_ids (nPE job_spin)) with [0; 1] in Hrun.
    cbn [run_workers] in Hrun.
    assert (plp_mat_scale_stride_f32p_xpulpv2 fuel 0 job_spin demo_mem = None)
      as Hnone.
    { unfold plp_mat_scale_stride_f32p_xpulpv2, for_u32.
      change (U32.wrap 0) with (2 * 0). change (nPE job_spin) with 2.
      rewrite loop_u32_even_spins; [reflexivity | reflexivity | lia]. }
    rewrite Hnone in Hrun. discriminate.
Qed.

(** Where the destination stride is below the width, rows overlap and the
    order of the workers shows: the cell shared by the rows 0 and 1 holds
    what the worker that ran last stored. *)

Example scale_overlapping_rows_order :
  option_map (fun h' => h' 101) (run_workers 4 [1; 0] job_narrow demo_mem)
  = Some (F32.of_Z 3) /\
  option_map (fun h' => h' 101)
    (plp_mat_scale_stride_f32p_xpulpv2 4 0 (single_core job_narrow) demo_mem)
  = Some (F32.of_Z 6).
Proof. split; vm_compute; reflexivity. Qed.

(** ** The glue code *)

(** C7.  Every call reads the cluster identifier of the world it is made
    in and takes one of two branches: the scalar kernel when the
    identifier is [ARCHI_FC_CID], the XpulpV2 kernel otherwise, with the
    nine arguments as received.  In a world that logs the kernel calls, a
    sequence of invocations logs one call per invocation, the variant
    chosen by the identifier of that invocation alone. *)
Theorem glue_selects_by_cluster_id :
  (forall (World : Type) (rt_cluster_id : World -> Z) (ARCHI_FC_CID : Z)
          (rv32im xpulpv2 : Z -> Z -> Z -> Z -> Z -> Z -> Z -> Z -> Z -> World -> World)
          (pSrcA pSrcB M N O strideA strideB strideC pDstC : Z) (w : World),
     (rt_cluster_id w = ARCHI_FC_CID ->
      plp_mat_mult_cmplx_stride_i32 World rt_cluster_id ARCHI_FC_CID rv32im xpulpv2
        pSrcA pSrcB M N O strideA strideB strideC pDstC w
      = rv32im pSrcA pSrcB M N O strideA strideB strideC pDstC w) /\
     (rt_cluster_id w <> ARCHI_FC_CID ->
      plp_mat_mult_cmplx_stride_i32 World rt_cluster_id ARCHI_FC_CID rv32im xpulpv2
        pSrcA pSrcB M N O strideA strideB strideC pDstC w
      = xpulpv2 pSrcA pSrcB M N O strideA strideB strideC pDstC w)) /\
  (forall (fc : Z) (l : list (Z * mat_mult_args)) (w : logged),
     calls (fold_left (invoke fc) l w)
     = calls w ++
       map (fun c => {| call_variant := selected fc (fst c); call_args := snd c |}) l).
Proof.
  split.
  - intros. unfold plp_mat_mult_cmplx_stride_i32.
    destruct (Z.eqb_spec (rt_cluster_id w) ARCHI_FC_CID); split; congruence.
  - intros fc l. induction l as [|[cid x] l IH]; intros w.
    + cbn. now rewrite app_nil_r.
    + cbn [fold_left map]. rewrite IH. cbn [fst snd].
      unfold invoke, logged_glue, plp_mat_mult_cmplx_stride_i32, selected.
      cbn [fst snd cluster_id calls].
      destruct x. cbn.
      destruct (cid =? fc); cbn; now rewrite <- app_assoc.
Qed.

(** ** Two's complement arithmetic *)

Lemma swrap_shift (w z k : Z) : swrap w (z + k * 2 ^ w) = swrap w z.
Proof.
  unfold swrap.
  replace (z + k * 2 ^ w + 2 ^ (w - 1)) with (z + 2 ^ (w - 1) + k * 2 ^ w) by ring.
  destruct (Z.eq_dec (2 ^ w) 0) as [H0|Hne].
  - rewrite H0, Z.mul_0_r, Z.add_0_r. reflexivity.
  - now rewrite Z.mod_add.
Qed.

Lemma swrap_repr (w z : Z) : exists k, swrap w z = z + k * 2 ^ w.
Proof.
  unfold swrap. exists (- ((z + 2 ^ (w - 1)) / 2 ^ w)).
  destruct (Z.eq_dec (2 ^ w) 0) as [H0|Hne].
  - rewrite H0, Z.mod_0_r. lia.
  - pose proof (Z.div_mod (z + 2 ^ (w - 1)) (2 ^ w) Hne). lia.
Qed.

Lemma I32_wrap_shift (z k : Z) : I32.wrap (z + k * 2 ^ 32) = I32.wrap z.
Proof. apply swrap_shift. Qed.

Lemma I32_wrap_repr (z : Z) : exists k, I32.wrap z = z + k * 2 ^ 32.
Proof. apply swrap_repr. Qed.

Lemma I16_wrap_I32_wrap (z : Z) : I16.wrap (I32.wrap z) = I16.wrap z.
Proof.
  destruct (I32_wrap_repr z) as [k ->]. unfold I16.wrap.
  replace (z + k * 2 ^ 32) with (z + (k * 2 ^ 16) * 2 ^ 16) by ring.
  apply swrap_shift.
Qed.

(** ** The 16-bit complex dot product *)

Lemma steps_snoc (k : nat) (i step : Z) :
  steps (S k) i step = steps k i step ++ [i + Z.of_nat k * step].
Proof.
  revert i. induction k as [|k IH]; intros i.
  - cbn. f_equal. lia.
  - change (steps (S (S k)) i step)
      with (i :: steps (S k) (i + step) step).
    rewrite IH. cbn [steps app]. do 3 f_equal. lia.
Qed.

Lemma exact_sum_succ (f : Z -> Z) (n : Z) :
  0 <= n -> exact_sum f (n + 1) = exact_sum f n + f n.
Proof.
  intros Hn. unfold exact_sum, range.
  replace (Z.to_nat (n + 1)) with (S (Z.to_nat n)) by lia.
  rewrite steps_snoc, fold_left_app. cbn [fold_left].
  do 2 f_equal. lia.
Qed.

Lemma shuffle_odd (x y : v2s) : shuffle x y (1, 3) = (snd x, snd y).
Proof. reflexivity. Qed.

Lemma shuffle_even (x y : v2s) : shuffle x y (0, 2) = (fst x, fst y).
Proof. reflexivity. Qed.

Lemma shuffle_swap (x : v2s) : shuffle x x (1, 0) = (snd x, fst x).
Proof. reflexivity. Qed.

Lemma dp_pair_spec (pSrcA pSrcB : vec16) (i re im : Z) :
  0 <= i -> 4 * i + 3 < U32.modulus ->
  dp_pair pSrcA pSrcB i (re, im)
  = (I32.wrap (re + sample_re pSrcA pSrcB (2 * i) + sample_re pSrcA pSrcB (2 * i + 1)),
     I32.wrap (im + sample_im pSrcA pSrcB (2 * i) + sample_im pSrcA pSrcB (2 * i + 1))).
Proof.
  intros Hi Hfit. unfold dp_pair, U32.add, U32.mul.
  rewrite (wrap_small (4 * i)) by (unfold U32.in_range; lia).
  rewrite (wrap_small (4 * i + 2)) by (unfold U32.in_range; lia).
  rewrite !shuffle_odd, !shuffle_even, !shuffle_swap.
  unfold sample_re, sample_im, load_v2s. cbn [fst snd].
  replace (2 * (2 * i)) with (4 * i) by lia.
  replace (2 * (2 * i + 1)) with (4 * i + 2) by lia.
  generalize (load16 pSrcA (4 * i)) (load16 pSrcA (4 * i + 1))
             (load16 pSrcA (4 * i + 2)) (load16 pSrcA (4 * i + 2 + 1))
             (load16 pSrcB (4 * i)) (load16 pSrcB (4 * i + 1))
             (load16 pSrcB (4 * i + 2)) (load16 pSrcB (4 * i + 2 + 1)).
  intros a b e f c d g h.
  unfold SUMDOTP2, DOTP2, I32.sub. cbn [fst snd]. f_equal.
  - destruct (I32_wrap_repr (re + a * c + e * g)) as [k1 ->].
    destruct (I32_wrap_repr (b * d + f * h)) as [k2 ->].
    replace (re + a * c + e * g + k1 * 2 ^ 32 - (b * d + f * h + k2 * 2 ^ 32))
      with (re + (a * c - b * d) + (e * g - f * h) + (k1 - k2) * 2 ^ 32) by ring.
    apply I32_wrap_shift.
  - destruct (I32_wrap_repr (im + a * d + b * c)) as [k1 ->].
    replace (im + a * d + b * c + k1 * 2 ^ 32 + e * h + f * g)
      with (im + (a * d + b * c) + (e * h + f * g) + k1 * 2 ^ 32) by ring.
    apply I32_wrap_shift.
Qed.

Lemma dp_pairs_sum (pSrcA pSrcB : vec16) (k : nat) :
  4 * Z.of_nat k <= U32.modulus ->
  fold_left (fun s j => dp_pair pSrcA pSrcB j s) (steps k 0 1) (0, 0)
  = (I32.wrap (exact_sum (sample_re pSrcA pSrcB) (2 * Z.of_nat k)),
     I32.wrap (exact_sum (sample_im pSrcA pSrcB) (2 * Z.of_nat k))).
Proof.
  induction k as [|k IH]; intros Hfit.
  - reflexivity.
  - rewrite steps_snoc, fold_left_app, IH by lia. cbn [fold_left].
    replace (0 + Z.of_nat k * 1) with (Z.of_nat k) by lia.
    rewrite dp_pair_spec by lia.
    replace (2 * Z.of_nat (S k)) with (2 * Z.of_nat k + 1 + 1) by lia.
    rewrite !exact_sum_succ by lia. f_equal.
    + destruct (I32_wrap_repr (exact_sum (sample_re pSrcA pSrcB) (2 * Z.of_nat k)))
        as [q ->].
      etransitivity; [|apply (I32_wrap_shift _ q)]. f_equal. ring.
    + destruct (I32_wrap_repr (exact_sum (sample_im pSrcA pSrcB) (2 * Z.of_nat k)))
        as [q ->].
      etransitivity; [|apply (I32_wrap_shift _ q)]. f_equal. ring.
Qed.

Lemma dp_tail_re (pSrcA pSrcB : vec16) (i acc : Z) :
  I32.add (I32.wrap acc)
    (I32.sub (I32.mul (load16 pSrcA (4 * i)) (load16 pSrcB (4 * i)))
             (I32.mul (load16 pSrcA (4 * i + 1)) (load16 pSrcB (4 * i + 1))))
  = I32.wrap (acc + sample_re pSrcA pSrcB (2 * i)).
Proof.
  unfold sample_re. replace (2 * (2 * i)) with (4 * i) by lia.
  generalize (load16 pSrcA (4 * i)) (load16 pSrcA (4 * i + 1))
             (load16 pSrcB (4 * i)) (load16 pSrcB (4 * i + 1)).
  intros a b c d. unfold I32.add, I32.sub, I32.mul.
  destruct (I32_wrap_repr (a * c)) as [k1 ->].
  destruct (I32_wrap_repr (b * d)) as [k2 ->].
  destruct (I32_wrap_repr (a * c + k1 * 2 ^ 32 - (b * d + k2 * 2 ^ 32))) as [k3 ->].
  destruct (I32_wrap_repr acc) as [k4 ->].
  etransitivity;
    [|apply (I32_wrap_shift (acc + (a * c - b * d)) (k1 - k2 + k3 + k4))].
  f_equal. ring.
Qed.

Lemma dp_tail_im (pSrcA pSrcB : vec16) (i acc : Z) :
  I32.add (I32.wrap acc)
    (I32.add (I32.mul (load16 pSrcA (4 * i)) (load16 pSrcB (4 * i + 1)))
             (I32.mul (load16 pSrcA (4 * i + 1)) (load16 pSrcB (4 * i))))
  = I32.wrap (acc + sample_im pSrcA pSrcB (2 * i)).
Proof.
  unfold sample_im. replace (2 * (2 * i)) with (4 * i) by lia.
  generalize (load16 pSrcA (4 * i)) (load16 pSrcA (4 * i + 1))
             (load16 pSrcB (4 * i)) (load16 pSrcB (4 * i + 1)).
  intros a b c d. unfold I32.add, I32.mul.
  destruct (I32_wrap_repr (a * d)) as [k1 ->].
  destruct (I32_wrap_repr (b * c)) as [k2 ->].
  destruct (I32_wrap_repr (a * d + k1 * 2 ^ 32 + (b * c + k2 * 2 ^ 32))) as [k3 ->].
  destruct (I32_wrap_repr acc) as [k4 ->].
  etransitivity;
    [|apply (I32_wrap_shift (acc + (a * d + b * c)) (k1 + k2 + k3 + k4))].
  f_equal. ring.
Qed.

Lemma land_1 (n : Z) : Z.land n 1 = n mod 2.
Proof. exact (Z.land_ones n 1 ltac:(lia)). Qed.

(** C10.  For every number of samples, even or odd, whose [2 * numSamples]
    values can be indexed in 32 bits, the kernel returns, and the values it
    stores through [realResult] and [imagResult] are the exact integer sums
    over all samples of [a_re*b_re - a_im*b_im] and of
    [a_re*b_im + a_im*b_re] narrowed to 16 bits (their low 16 bits, read as
    a signed value). *)
Theorem cmplx_dot_prod_i16_exact_low16
    (fuel : nat) (pSrcA pSrcB : vec16) (numSamples : Z) :
  0 <= numSamples -> 2 * numSamples <= U32.modulus ->
  enough fuel (numSamples / 2) ->
  plp_cmplx_dot_prod_i16_xpulpv2 fuel pSrcA pSrcB numSamples
  = Some (I16.wrap (exact_sum (sample_re pSrcA pSrcB) numSamples),
          I16.wrap (exact_sum (sample_im pSrcA pSrcB) numSamples)).
Proof.
  intros Hn Hfit Hf. unfold plp_cmplx_dot_prod_i16_xpulpv2.
  pose proof (Z.div_mod numSamples 2 ltac:(lia)) as Hdm.
  pose proof (Z.mod_pos_bound numSamples 2 ltac:(lia)) as Hmb.
  assert (0 <= numSamples / 2) as Hq by (apply Z.div_pos; lia).
  unfold U32.modulus, enough in *.
  rewrite (loop_u32_run _ (fun j s => dp_pair pSrcA pSrcB j s) (numSamples / 2) 1);
    unfold U32.modulus; rewrite ?trip_unit; try lia.
  2: { intros j [re im]. reflexivity. }
  rewrite dp_pairs_sum by (unfold U32.modulus; lia).
  rewrite Z2Nat.id by assumption.
  replace (0 + numSamples / 2 * 1) with (numSamples / 2) by lia.
  rewrite land_1. unfold U32.add, U32.mul.
  destruct (Z.eqb_spec (numSamples mod 2) 0) as [Heven|Hodd]; cbn [negb].
  - rewrite !I16_wrap_I32_wrap.
    replace (2 * (numSamples / 2)) with numSamples by lia. reflexivity.
  - rewrite (wrap_small (4 * (numSamples / 2)))
      by (unfold U32.in_range, U32.modulus; lia).
    rewrite (wrap_small (4 * (numSamples / 2) + 1))
      by (unfold U32.in_range, U32.modulus; lia).
    rewrite dp_tail_re, dp_tail_im, !I16_wrap_I32_wrap.
    rewrite <- !exact_sum_succ by lia.
    replace (2 * (numSamples / 2) + 1) with numSamples by lia. reflexivity.
Qed.

(** ** The properties at concrete inputs *)

(** Two views of two rows, two columns and stride 3 do not overlap when
    their base addresses are 100 apart. *)

Lemma demo_views_apart (p q : Z) (a : Z) :
  p + 100 <= q \/ q + 100 <= p ->
  in_view2 p 2 2 3 a -> ~ in_view2 q 2 2 3 a.
Proof.
  intros Hpq (r & c & k & Hr & Hc & Hk & Ha) (r' & c' & k' & Hr' & Hc' & Hk' & Ha').
  unfold offset2 in *. lia.
Qed.

Lemma demo_view_valid : valid_view2 2 2 3.
Proof.
  unfold valid_view2, U32.in_range, U32.modulus, offset2.
  repeat split; lia.
Qed.

Lemma mat_mult_cmplx_stride_reference_witness :
  exists h',
    plp_mat_mult_cmplx_stride_f32s_xpulpv2 3 0 100 2 2 2 3 3 3 200 demo_mem
    = Some h' /\
    forall m o, 0 <= m < 2 -> 0 <= o < 2 ->
      h' (200 + offset2 m 3 o 0) = fst (ref_product demo_mem 0 100 2 3 3 m o) /\
      h' (200 + offset2 m 3 o 1) = snd (ref_product demo_mem 0 100 2 3 3 m o).
Proof.
  apply (mat_mult_cmplx_stride_reference 3 0 100 2 2 2 3 3 3 200 demo_mem).
  - exact demo_view_valid.
  - exact demo_view_valid.
  - exact demo_view_valid.
  - intros a. apply demo_views_apart. lia.
  - intros a. apply demo_views_apart. lia.
  - unfold enough. simpl. lia.
  - unfold enough. simpl. lia.
  - unfold enough. simpl. lia.
Defined.

Lemma mat_mult_cmplx_stride_empty_reduction_witness :
  exists h',
    plp_mat_mult_cmplx_stride_f32s_xpulpv2 3 0 100 2 0 2 7 7 3 200 demo_mem
    = Some h' /\
    (forall m o k, 0 <= m < 2 -> 0 <= o < 2 -> 0 <= k < 2 ->
       h' (200 + idx2 m 3 o k) = F32.zero) /\
    (valid_view2 2 2 3 ->
     forall m o k, 0 <= m < 2 -> 0 <= o < 2 -> 0 <= k < 2 ->
       h' (200 + offset2 m 3 o k) = F32.zero).
Proof.
  apply (mat_mult_cmplx_stride_empty_reduction 3 0 100 2 2 7 7 3 200 demo_mem).
  - unfold U32.in_range, U32.modulus. lia.
  - unfold U32.in_range, U32.modulus. lia.
  - unfold enough. simpl. lia.
  - unfold enough. simpl. lia.
Defined.

Lemma mat_mult_cmplx_stride_1x1_witness :
  exists h',
    plp_mat_mult_cmplx_stride_f32s_xpulpv2 2 0 2 1 1 1 1 1 1 4 mem_1x1 = Some h' /\
    h' (4 + 0) = F32.of_Z (-5) /\
    h' (4 + 1) = F32.of_Z 10.
Proof.
  apply (mat_mult_cmplx_stride_1x1 2 0 2 4 mem_1x1).
  - unfold enough. simpl. lia.
  - reflexivity.
  - reflexivity.
  - reflexivity.
  - reflexivity.
Defined.

Lemma mat_mult_cmplx_stride_frame_witness :
  exists h',
    plp_mat_mult_cmplx_stride_f32s_xpulpv2 3 0 100 2 2 2 3 3 3 200 demo_mem
    = Some h' /\
    (forall a, ~ in_view2 200 2 2 3 a -> h' a = demo_mem a) /\
    (forall m c k, 0 <= m < 2 -> 2 <= c < 3 -> 0 <= k < 2 ->
       h' (200 + offset2 m 3 c k) = demo_mem (200 + offset2 m 3 c k)) /\
    (forall a, in_view2 0 2 2 3 a -> h' a = demo_mem a) /\
    (forall a, in_view2 100 2 2 3 a -> h' a = demo_mem a).
Proof.
  apply (mat_mult_cmplx_stride_frame 3 0 100 2 2 2 3 3 3 200 demo_mem).
  - exact demo_view_valid.
  - unfold U32.in_range, U32.modulus. lia.
  - intros a. apply demo_views_apart. lia.
  - intros a. apply demo_views_apart. lia.
  - unfold enough. simpl. lia.
  - unfold enough. simpl. lia.
  - unfold enough. simpl. lia.
Defined.

Lemma demo_job_valid : valid_job demo_job.
Proof.
  unfold valid_job, valid_view1, U32.in_range, U32.modulus, offset1.
  cbn [pSrc M N strideSrc strideDst nPE pDst demo_job].
  repeat split; try lia.
  intros x (r & c & Hr & Hc & Hx) (r' & c' & Hr' & Hc' & Hx').
  unfold offset1 in *. lia.
Qed.


Lemma parallel_rows_partition_witness :
  exists rows : Z -> list Z,
    (forall w, 0 <= w < nPE demo_job ->
       worker_rows 6 w (M demo_job) (nPE demo_job) = Some (rows w)) /\
    (forall w h, 0 <= w < nPE demo_job -> U32.in_range (N demo_job) ->
       enough 6 (N demo_job) ->
       plp_mat_scale_stride_f32p_xpulpv2 6 w demo_job h
       = Some (fold_left (fun s m => sc_row demo_job m s) (rows w) h)) /\
    (forall w w' r, 0 <= w < nPE demo_job -> 0 <= w' < nPE demo_job ->
       In r (rows w) -> In r (rows w') -> w = w') /\
    (forall r, 0 <= r < M demo_job <->
               exists w, 0 <= w < nPE demo_job /\ In r (rows w)) /\
    (valid_view1 (M demo_job) (N demo_job) (strideDst demo_job) ->
     forall w w' m n m' n', 0 <= w < nPE demo_job -> 0 <= w' < nPE demo_job ->
       In m (rows w) -> In m' (rows w') ->
       0 <= n < N demo_job -> 0 <= n' < N demo_job ->
       pDst demo_job + idx1 m (strideDst demo_job) n
       = pDst demo_job + idx1 m' (strideDst demo_job) n' ->
       w = w') /\
    (valid_job demo_job -> enough 6 (N demo_job) ->
     forall w w' m n h, 0 <= w < nPE demo_job -> 0 <= w' < nPE demo_job ->
       w <> w' -> In m (rows w') -> 0 <= n < N demo_job ->
       exists h',
         plp_mat_scale_stride_f32p_xpulpv2 6 w demo_job h = Some h' /\
         h' (pDst demo_job + offset1 m (strideDst demo_job) n)
         = h (pDst demo_job + offset1 m (strideDst demo_job) n)).
Proof.
  apply (parallel_rows_partition 6 demo_job).
  - unfold U32.in_range, U32.modulus. cbn. lia.
  - cbn. lia.
  - unfold U32.modulus. cbn. lia.
  - unfold enough. cbn. lia.
Defined.

Lemma parallel_equals_single_core_witness :
  exists hp hs,
    run_workers 6 [1; 0] demo_job demo_mem = Some hp /\
    plp_mat_scale_stride_f32p_xpulpv2 6 0 (single_core demo_job) demo_mem
    = Some hs /\
    (forall x, hp x = hs x) /\
    scaled_from demo_job demo_mem hs.
Proof.
  apply (parallel_equals_single_core 6 demo_job [1; 0] demo_mem).
  - exact demo_job_valid.
  - unfold enough. cbn. lia.
  - unfold enough. cbn. lia.
  - apply perm_swap.
Defined.

Lemma parallel_terminates_with_pool_witness :
  exists h', plp_mat_scale_stride_f32p_xpulpv2 6 1 demo_job demo_mem = Some h'.
Proof.
  apply (parallel_terminates_with_pool 6 1 demo_job demo_mem).
  - unfold U32.in_range, U32.modulus. cbn. lia.
  - unfold U32.in_range, U32.modulus. cbn. lia.
  - unfold U32.in_range, U32.modulus. lia.
  - cbn. lia.
  - unfold U32.modulus. cbn. lia.
  - unfold enough. cbn. lia.
  - unfold enough. cbn. lia.
Defined.

Lemma cmplx_dot_prod_i16_exact_low16_witness :
  plp_cmplx_dot_prod_i16_xpulpv2 2 demo_vecA demo_vecB 3
  = Some (I16.wrap (exact_sum (sample_re demo_vecA demo_vecB) 3),
          I16.wrap (exact_sum (sample_im demo_vecA demo_vecB) 3)).
Proof.
  apply (cmplx_dot_prod_i16_exact_low16 2 demo_vecA demo_vecB 3).
  - lia.
  - unfold U32.modulus. lia.
  - unfold enough. cbn. lia.
Defined.

(** ** The kernels evaluated *)

Example binary32_constants :
  F32.of_Z 1 = S754_finite false 8388608 (-23) /\
  F32.of_Z (-5) = S754_finite true 10485760 (-21) /\
  F32.of_Z 10 = S754_finite false 10485760 (-20).
Proof. repeat split; reflexivity. Qed.

Example worker_rows_interleaved :
  worker_rows 6 0 5 2 = Some [0; 2; 4] /\ worker_rows 6 1 5 2 = Some [1; 3].
Proof. split; reflexivity. Qed.

(** Outside the valid jobs the [uint32_t] arithmetic wraps: a row counter
    that passes [2^32] comes back to the first rows, and an index that
    passes [2^32] comes back to the first cells. *)

Example row_counter_wraps :
  worker_rows 4 3 (2 ^ 32 - 1) (2 ^ 32 - 2) = Some [3; 1].
Proof. reflexivity. Qed.

Example idx2_wraps : idx2 1 (2 ^ 31) 0 0 = 0.
Proof. reflexivity. Qed.

Example dot_prod_three_samples :
  exact_sum (sample_re demo_vecA demo_vecB) 3 = -2147450902 /\
  exact_sum (sample_im demo_vecA demo_vecB) 3 = 32856 /\
  plp_cmplx_dot_prod_i16_xpulpv2 2 demo_vecA demo_vecB 3 = Some (32746, -32680).
Proof. repeat split; reflexivity. Qed.

Example scale_two_workers :
  match run_workers 6 [1; 0] demo_job demo_mem with
  | Some h => map h [100; 101; 102; 104; 105; 116; 117; 118]
  | None => []
  end
  = [F32.of_Z 0; F32.of_Z 3; F32.of_Z 102; F32.of_Z 9; F32.of_Z 12;
     F32.of_Z 36; F32.of_Z 39; F32.of_Z 118].
Proof. vm_compute. reflexivity. Qed.

(** * Further properties of the kernels *)

(** ** Loops whose bodies agree *)

Lemma loop_u32_ext {St : Type} (body1 body2 : Z -> St -> option St)
    (bound step : Z) :
  (forall j s, 0 <= j < bound -> body1 j s = body2 j s) ->
  forall fuel i s, 0 <= i ->
    loop_u32 fuel i bound step body1 s = loop_u32 fuel i bound step body2 s.
Proof.
  intros Hb. induction fuel as [|fuel IH]; intros i s Hi; [reflexivity|].
  cbn [loop_u32]. destruct (Z.ltb_spec i bound) as [Hlt|Hge]; [|reflexivity].
  rewrite Hb by lia. destruct (body2 i s) as [s'|]; [|reflexivity].
  apply IH. unfold U32.add, U32.wrap, U32.modulus.
  apply Z.mod_pos_bound. lia.
Qed.

Lemma fold_left_same {A B : Type} (l : list B) (a : A) :
  fold_left (fun s _ => s) l a = a.
Proof. induction l as [|x l IH]; [reflexivity | exact IH]. Qed.

(** ** The complex matrix product: empty outputs, padding, row blocks *)

(** X1.  A product with no output element, [M = 0] or [O = 0], returns the
    store as it received it, whatever [N], the strides and the pointers. *)
Theorem mat_mult_cmplx_stride_empty_output
    (fuel : nat) (pSrcA pSrcB M N O strideA strideB strideC pDstC : Z) (h : mem) :
  U32.in_range M -> enough fuel M -> M = 0 \/ O = 0 ->
  plp_mat_mult_cmplx_stride_f32s_xpulpv2 fuel
    pSrcA pSrcB M N O strideA strideB strideC pDstC h = Some h.
Proof.
  intros HM FM Hempty. unfold plp_mat_mult_cmplx_stride_f32s_xpulpv2.
  assert (fuel <> 0%nat) as Hfuel by (unfold enough in FM; lia).
  destruct fuel as [|fuel]; [congruence|].
  destruct Hempty as [-> | ->]; [reflexivity|].
  rewrite (for_u32_range _ (fun _ s => s)); auto.
  now rewrite fold_left_same.
Qed.

Lemma mat_mult_cmplx_stride_empty_output_witness :
  plp_mat_mult_cmplx_stride_f32s_xpulpv2 4 0 100 3 2 0 2 5 5 200 demo_mem
  = Some demo_mem.
Proof.
  apply (mat_mult_cmplx_stride_empty_output 4 0 100 3 2 0 2 5 5 200 demo_mem).
  - unfold U32.in_range, U32.modulus. lia.
  - unfold enough. simpl. lia.
  - right. reflexivity.
Defined.

(** X2.  The product reads the elements of the two source views and nothing
    else: two stores that agree on the cells of [A] and of [B], whatever
    the stride padding and the rest hold, give the same destination
    elements. *)
Theorem mat_mult_cmplx_stride_reads_views_only
    (fuel : nat) (pSrcA pSrcB M N O strideA strideB strideC pDstC : Z)
    (h1 h2 : mem) :
  valid_view2 M N strideA -> valid_view2 N O strideB -> valid_view2 M O strideC ->
  (forall a, in_view2 pDstC M O strideC a -> ~ in_view2 pSrcA M N strideA a) ->
  (forall a, in_view2 pDstC M O strideC a -> ~ in_view2 pSrcB N O strideB a) ->
  enough fuel M -> enough fuel N -> enough fuel O ->
  (forall a, in_view2 pSrcA M N strideA a -> h1 a = h2 a) ->
  (forall a, in_view2 pSrcB N O strideB a -> h1 a = h2 a) ->
  exists h1' h2',
    plp_mat_mult_cmplx_stride_f32s_xpulpv2 fuel
      pSrcA pSrcB M N O strideA strideB strideC pDstC h1 = Some h1' /\
    plp_mat_mult_cmplx_stride_f32s_xpulpv2 fuel
      pSrcA pSrcB M N O strideA strideB strideC pDstC h2 = Some h2' /\
    forall a, in_view2 pDstC M O strideC a -> h1' a = h2' a.
Proof.
  intros HA HB HC HCA HCB FM FN FO HA12 HB12.
  assert (U32.in_range M /\ U32.in_range N /\ U32.in_range O) as (HM & HN & HO).
  { destruct HA as (? & ? & _), HC as (_ & ? & _). auto. }
  exists (mm_all pSrcA pSrcB M N O strideA strideB strideC pDstC h1),
         (mm_all pSrcA pSrcB M N O strideA strideB strideC pDstC h2).
  split; [now apply mm_total|]. split; [now apply mm_total|].
  intros a (m & o & k & Hm & Ho & Hk & ->).
  destruct (mm_all_post pSrcA pSrcB M N O strideA strideB strideC pDstC
              HC HA HB HCA HCB h1 m o Hm Ho) as [R1 I1].
  destruct (mm_all_post pSrcA pSrcB M N O strideA strideB strideC pDstC
              HC HA HB HCA HCB h2 m o Hm Ho) as [R2 I2].
  rewrite (ref_product_agree pSrcA pSrcB M N O strideA strideB h1 h2) in R1, I1
    by auto.
  assert (k = 0 \/ k = 1) as [-> | ->] by lia; congruence.
Qed.

Lemma mat_mult_cmplx_stride_reads_views_only_witness :
  exists h1' h2',
    plp_mat_mult_cmplx_stride_f32s_xpulpv2 3 0 100 2 2 2 3 3 3 200 demo_mem
    = Some h1' /\
    plp_mat_mult_cmplx_stride_f32s_xpulpv2 3 0 100 2 2 2 3 3 3 200
      (store demo_mem 0 4 F32.zero) = Some h2' /\
    forall a, in_view2 200 2 2 3 a -> h1' a = h2' a.
Proof.
  apply (mat_mult_cmplx_stride_reads_views_only 3 0 100 2 2 2 3 3 3 200
           demo_mem (store demo_mem 0 4 F32.zero)).
  - exact demo_view_valid.
  - exact demo_view_valid.
  - exact demo_view_valid.
  - intros a. apply demo_views_apart. lia.
  - intros a. apply demo_views_apart. lia.
  - unfold enough. simpl. lia.
  - unfold enough. simpl. lia.
  - unfold enough. simpl. lia.
  - intros a (r & c & k & Hr & Hc & Hk & ->). symmetry. apply store_other.
    unfold offset2. lia.
  - intros a (r & c & k & Hr & Hc & Hk & ->). symmetry. apply store_other.
    unfold offset2. lia.
Defined.

Lemma in_view2_dec (p rows cols stride a : Z) :
  cols <= stride ->
  in_view2 p rows cols stride a \/ ~ in_view2 p rows cols stride a.
Proof.
  intros Hcs. destruct (Z_le_dec stride 0) as [Hs|Hs].
  - right. intros (r & c & k & Hr & Hc & _). lia.
  - set (e := (a - p) / 2).
    pose proof (Z.div_mod (a - p) 2 ltac:(lia)) as Hd2.
    pose proof (Z.mod_pos_bound (a - p) 2 ltac:(lia)) as Hm2.
    pose proof (Z.div_mod e stride ltac:(lia)) as Hds.
    pose proof (Z.mod_pos_bound e stride ltac:(lia)) as Hms.
    assert (forall r c k, 0 <= c < cols -> 0 <= k < 2 ->
              a = p + offset2 r stride c k ->
              r = e / stride /\ c = e mod stride) as Huniq.
    { intros r c k Hc Hk He. unfold offset2 in He.
      assert (e = r * stride + c) as Hee.
      { unfold e. symmetry. apply (Z.div_unique (a - p) 2 _ k); lia. }
      split.
      - apply (Z.div_unique e stride r c); lia.
      - apply (Z.mod_unique e stride r c); lia. }
    destruct (Z_le_dec 0 (e / stride)) as [H0|H0];
      [destruct (Z_lt_dec (e / stride) rows) as [H1|H1];
       [destruct (Z_lt_dec (e mod stride) cols) as [H2|H2]|]|].
    + left. exists (e / stride), (e mod stride), ((a - p) mod 2).
      unfold offset2. fold e in Hd2. repeat split; lia.
    + right. intros (r & c & k & Hr & Hc & Hk & He).
      destruct (Huniq r c k Hc Hk He). lia.
    + right. intros (r & c & k & Hr & Hc & Hk & He).
      destruct (Huniq r c k Hc Hk He). lia.
    + right. intros (r & c & k & Hr & Hc & Hk & He).
      destruct (Huniq r c k Hc Hk He). lia.
Qed.

Lemma product_from_unique
    (pSrcA pSrcB M N O strideA strideB strideC pDstC : Z) (h h1 h2 : mem) :
  O <= strideC ->
  product_from pSrcA pSrcB M N O strideA strideB strideC pDstC h h1 ->
  product_from pSrcA pSrcB M N O strideA strideB strideC pDstC h h2 ->
  forall a, h1 a = h2 a.
Proof.
  intros Hcs [F1 P1] [F2 P2] a.
  destruct (in_view2_dec pDstC M O strideC a Hcs)
    as [(m & o & k & Hm & Ho & Hk & ->) | Hout].
  - destruct (P1 m o Hm Ho) as [R1 I1], (P2 m o Hm Ho) as [R2 I2].
    assert (k = 0 \/ k = 1) as [-> | ->] by lia; congruence.
  - now rewrite F1, F2.
Qed.

Lemma mm_all_product
    (pSrcA pSrcB M N O strideA strideB strideC pDstC : Z) (h : mem) :
  valid_view2 M N strideA -> valid_view2 N O strideB -> valid_view2 M O strideC ->
  (forall a, in_view2 pDstC M O strideC a -> ~ in_view2 pSrcA M N strideA a) ->
  (forall a, in_view2 pDstC M O strideC a -> ~ in_view2 pSrcB N O strideB a) ->
  product_from pSrcA pSrcB M N O strideA strideB strideC pDstC h
    (mm_all pSrcA pSrcB M N O strideA strideB strideC pDstC h).
Proof.
  intros HA HB HC HCA HCB. split.
  - intros a Ha. now apply mm_all_frame.
  - intros m o Hm Ho. now apply mm_all_post.
Qed.

(** Views of the first rows and of the rows that follow them. *)

Lemma valid_view2_head (M1 M2 cols stride : Z) :
  0 <= M1 -> 0 <= M2 ->
  valid_view2 (M1 + M2) cols stride -> valid_view2 M1 cols stride.
Proof.
  unfold valid_view2, U32.in_range.
  intros H1 H2 (HM & Hc & Hs & Hcs & Hfit). repeat split; try lia.
  intros r c Hr Hcc. apply Hfit; lia.
Qed.

Lemma valid_view2_tail (M1 M2 cols stride : Z) :
  0 <= M1 -> 0 <= M2 ->
  valid_view2 (M1 + M2) cols stride -> valid_view2 M2 cols stride.
Proof.
  unfold valid_view2, U32.in_range.
  intros H1 H2 (HM & Hc & Hs & Hcs & Hfit). repeat split; try lia.
  intros r c Hr Hcc. specialize (Hfit (r + M1) c ltac:(lia) Hcc).
  unfold offset2 in *. nia.
Qed.

Lemma in_view2_head (p M1 M2 cols stride a : Z) :
  0 <= M2 -> in_view2 p M1 cols stride a -> in_view2 p (M1 + M2) cols stride a.
Proof.
  intros H2 (r & c & k & Hr & Hc & Hk & ->). exists r, c, k. repeat split; lia.
Qed.

Lemma in_view2_tail (p M1 M2 cols stride a : Z) :
  0 <= M1 ->
  in_view2 (p + offset2 M1 stride 0 0) M2 cols stride a ->
  in_view2 p (M1 + M2) cols stride a.
Proof.
  intros H1 (r & c & k & Hr & Hc & Hk & ->). exists (r + M1), c, k.
  unfold offset2. repeat split; lia.
Qed.

Lemma ref_product_tail (pSrcA pSrcB M1 M2 N O strideA strideB r o : Z)
    (s h : mem) :
  0 <= M1 ->
  (forall a, in_view2 pSrcA (M1 + M2) N strideA a -> s a = h a) ->
  (forall a, in_view2 pSrcB N O strideB a -> s a = h a) ->
  0 <= r < M2 -> 0 <= o < O ->
  ref_product s (pSrcA + offset2 M1 strideA 0 0) pSrcB N strideA strideB r o
  = ref_product h pSrcA pSrcB N strideA strideB (r + M1) o.
Proof.
  intros H1 HA HB Hr Ho. unfold ref_product.
  apply fold_left_ext_in. intros acc n Hn. apply in_range_iff in Hn.
  unfold cmplx_at.
  replace (pSrcA + offset2 M1 strideA 0 0 + offset2 r strideA n 0)
    with (pSrcA + offset2 (r + M1) strideA n 0) by (unfold offset2; ring).
  replace (pSrcA + offset2 M1 strideA 0 0 + offset2 r strideA n 1)
    with (pSrcA + offset2 (r + M1) strideA n 1) by (unfold offset2; ring).
  rewrite (HA (pSrcA + offset2 (r + M1) strideA n 0)),
          (HA (pSrcA + offset2 (r + M1) strideA n 1)),
          (HB (pSrcB + offset2 n strideB o 0)),
          (HB (pSrcB + offset2 n strideB o 1)); try reflexivity.
  - exists n, o, 1. repeat split; lia.
  - exists n, o, 0. repeat split; lia.
  - exists (r + M1), n, 1. repeat split; lia.
  - exists (r + M1), n, 0. repeat split; lia.
Qed.

Section RowBlocks.

Variables pSrcA pSrcB M1 M2 N O strideA strideB strideC pDstC : Z.

Hypothesis HM1 : 0 <= M1.
Hypothesis HM2 : 0 <= M2.
Hypothesis HA : valid_view2 (M1 + M2) N strideA.
Hypothesis HB : valid_view2 N O strideB.
Hypothesis HC : valid_view2 (M1 + M2) O strideC.
Hypothesis HCA :
  forall a, in_view2 pDstC (M1 + M2) O strideC a ->
            ~ in_view2 pSrcA (M1 + M2) N strideA a.
Hypothesis HCB :
  forall a, in_view2 pDstC (M1 + M2) O strideC a ->
            ~ in_view2 pSrcB N O strideB a.

Lemma mm_blocks_product (h : mem) :
  product_from pSrcA pSrcB (M1 + M2) N O strideA strideB strideC pDstC h
    (mm_all (pSrcA + offset2 M1 strideA 0 0) pSrcB M2 N O
       strideA strideB strideC (pDstC + offset2 M1 strideC 0 0)
       (mm_all pSrcA pSrcB M1 N O strideA strideB strideC pDstC h)).
Proof.
  set (h1 := mm_all pSrcA pSrcB M1 N O strideA strideB strideC pDstC h).
  pose proof (valid_view2_head M1 M2 N strideA HM1 HM2 HA) as HA1.
  pose proof (valid_view2_tail M1 M2 N strideA HM1 HM2 HA) as HA2.
  pose proof (valid_view2_head M1 M2 O strideC HM1 HM2 HC) as HC1.
  pose proof (valid_view2_tail M1 M2 O strideC HM1 HM2 HC) as HC2.
  assert (O <= strideC) as Hcs by (destruct HC as (_ & _ & _ & H & _); exact H).
  assert (forall a, ~ in_view2 pDstC M1 O strideC a -> h1 a = h a) as F1.
  { intros a Ha. unfold h1. now apply mm_all_frame. }
  assert (forall a, in_view2 pSrcA (M1 + M2) N strideA a -> h1 a = h a) as HA1h.
  { intros a Ha. apply F1. intros HaC.
    apply (HCA a); auto. now apply in_view2_head. }
  assert (forall a, in_view2 pSrcB N O strideB a -> h1 a = h a) as HB1h.
  { intros a Ha. apply F1. intros HaC.
    apply (HCB a); auto. now apply in_view2_head. }
  split.
  - intros a Ha. rewrite mm_all_frame; auto.
    + apply F1. intros HaC. apply Ha. now apply in_view2_head.
    + intros HaC. apply Ha. now apply in_view2_tail.
  - intros m o Hm Ho. destruct (Z_lt_le_dec m M1) as [Hlt|Hge].
    + assert (forall k, 0 <= k < 2 ->
                ~ in_view2 (pDstC + offset2 M1 strideC 0 0) M2 O strideC
                    (pDstC + offset2 m strideC o k)) as Hout.
      { intros k Hk (r & c & k' & Hr & Hc & Hk' & He).
        assert (offset2 m strideC o k = offset2 (r + M1) strideC c k') as He'.
        { unfold offset2 in *. lia. }
        apply offset2_inj in He'; lia. }
      rewrite !mm_all_frame by (auto; apply Hout; lia).
      apply (mm_all_post pSrcA pSrcB M1 N O strideA strideB strideC pDstC);
        auto; try lia.
      * intros a Ha HaA. apply (HCA a); now apply in_view2_head.
      * intros a Ha. apply HCB. now apply in_view2_head.
    + replace (pDstC + offset2 m strideC o 0)
        with (pDstC + offset2 M1 strideC 0 0 + offset2 (m - M1) strideC o 0)
        by (unfold offset2; ring).
      replace (pDstC + offset2 m strideC o 1)
        with (pDstC + offset2 M1 strideC 0 0 + offset2 (m - M1) strideC o 1)
        by (unfold offset2; ring).
      assert (ref_product h pSrcA pSrcB N strideA strideB m o
              = ref_product h1 (pSrcA + offset2 M1 strideA 0 0) pSrcB N
                  strideA strideB (m - M1) o) as ->.
      { rewrite (ref_product_tail pSrcA pSrcB M1 M2 N O strideA strideB
                   (m - M1) o h1 h) by (auto; lia).
        now replace (m - M1 + M1) with m by lia. }
      apply (mm_all_post (pSrcA + offset2 M1 strideA 0 0) pSrcB M2 N O
               strideA strideB strideC (pDstC + offset2 M1 strideC 0 0));
        auto; try lia.
      * intros a Ha HaA. apply (HCA a); now apply in_view2_tail.
      * intros a Ha. apply HCB. now apply in_view2_tail.
Qed.

End RowBlocks.

(** X3.  The product composes by row blocks: the product of the first [M1]
    rows followed by the product of the [M2] rows after them, the pointers
    of [A] and [C] moved down by [M1] rows, leaves the store that the
    product of all [M1 + M2] rows leaves. *)
Theorem mat_mult_cmplx_stride_row_blocks
    (fuel : nat) (pSrcA pSrcB M1 M2 N O strideA strideB strideC pDstC : Z)
    (h : mem) :
  0 <= M1 -> 0 <= M2 ->
  valid_view2 (M1 + M2) N strideA -> valid_view2 N O strideB ->
  valid_view2 (M1 + M2) O strideC ->
  (forall a, in_view2 pDstC (M1 + M2) O strideC a ->
             ~ in_view2 pSrcA (M1 + M2) N strideA a) ->
  (forall a, in_view2 pDstC (M1 + M2) O strideC a ->
             ~ in_view2 pSrcB N O strideB a) ->
  enough fuel (M1 + M2) -> enough fuel N -> enough fuel O ->
  exists hall h1 h2,
    plp_mat_mult_cmplx_stride_f32s_xpulpv2 fuel
      pSrcA pSrcB (M1 + M2) N O strideA strideB strideC pDstC h = Some hall /\
    plp_mat_mult_cmplx_stride_f32s_xpulpv2 fuel
      pSrcA pSrcB M1 N O strideA strideB strideC pDstC h = Some h1 /\
    plp_mat_mult_cmplx_stride_f32s_xpulpv2 fuel
      (pSrcA + offset2 M1 strideA 0 0) pSrcB M2 N O strideA strideB strideC
      (pDstC + offset2 M1 strideC 0 0) h1 = Some h2 /\
    forall a, h2 a = hall a.
Proof.
  intros HM1 HM2 HA HB HC HCA HCB FM FN FO.
  assert (U32.in_range N /\ U32.in_range O) as (HN & HO).
  { destruct HB as (? & ? & _). auto. }
  assert (U32.in_range (M1 + M2)) as HM by now destruct HA.
  assert (O <= strideC) as Hcs by (destruct HC as (_ & _ & _ & H & _); exact H).
  unfold U32.in_range, enough in *.
  exists (mm_all pSrcA pSrcB (M1 + M2) N O strideA strideB strideC pDstC h),
         (mm_all pSrcA pSrcB M1 N O strideA strideB strideC pDstC h),
         (mm_all (pSrcA + offset2 M1 strideA 0 0) pSrcB M2 N O
            strideA strideB strideC (pDstC + offset2 M1 strideC 0 0)
            (mm_all pSrcA pSrcB M1 N O strideA strideB strideC pDstC h)).
  split; [|split; [|split]].
  - apply mm_total; unfold U32.in_range, enough; auto.
  - apply mm_total; unfold U32.in_range, enough; auto; lia.
  - apply mm_total; unfold U32.in_range, enough; auto; lia.
  - apply (product_from_unique pSrcA pSrcB (M1 + M2) N O
             strideA strideB strideC pDstC h); auto.
    + now apply mm_blocks_product.
    + now apply mm_all_product.
Qed.

Lemma mat_mult_cmplx_stride_row_blocks_witness :
  exists hall h1 h2,
    plp_mat_mult_cmplx_stride_f32s_xpulpv2 3 0 100 (1 + 1) 2 2 3 3 3 200 demo_mem
    = Some hall /\
    plp_mat_mult_cmplx_stride_f32s_xpulpv2 3 0 100 1 2 2 3 3 3 200 demo_mem
    = Some h1 /\
    plp_mat_mult_cmplx_stride_f32s_xpulpv2 3
      (0 + offset2 1 3 0 0) 100 1 2 2 3 3 3 (200 + offset2 1 3 0 0) h1
    = Some h2 /\
    forall a, h2 a = hall a.
Proof.
  apply (mat_mult_cmplx_stride_row_blocks 3 0 100 1 1 2 2 3 3 3 200 demo_mem).
  - lia.
  - lia.
  - exact demo_view_valid.
  - exact demo_view_valid.
  - exact demo_view_valid.
  - intros a. apply (demo_views_apart 200 0). lia.
  - intros a. apply (demo_views_apart 200 100). lia.
  - unfold enough. simpl. lia.
  - unfold enough. simpl. lia.
  - unfold enough. simpl. lia.
Defined.

(** ** The parallel matrix scale: one worker, balance, repetition *)



(** X5.  A worker whose index is not below [M] has no row: its call
    returns the store as it received it after one test of the loop
    condition, whatever the pool size, zero included. *)
Theorem scale_worker_without_rows
    (fuel : nat) (core_id : Z) (a : plp_mat_scale_stride_instance_f32) (h : mem) :
  U32.in_range core_id -> M a <= core_id -> (0 < fuel)%nat ->
  plp_mat_scale_stride_f32p_xpulpv2 fuel core_id a h = Some h.
Proof.
  intros Hc Hge Hf. unfold plp_mat_scale_stride_f32p_xpulpv2, for_u32.
  rewrite wrap_small by assumption.
  destruct fuel as [|fuel]; [lia|]. cbn [loop_u32].
  destruct (Z.ltb_spec core_id (M a)) as [Hlt|_]; [lia | reflexivity].
Qed.

Lemma scale_worker_without_rows_witness :
  plp_mat_scale_stride_f32p_xpulpv2 1 1 job_no_pool demo_mem = Some demo_mem.
Proof.
  apply (scale_worker_without_rows 1 1 job_no_pool demo_mem).
  - unfold U32.in_range, U32.modulus. lia.
  - cbn. lia.
  - lia.
Defined.

Lemma trip_balance (w w' bound step : Z) :
  0 <= w <= w' -> w' < step -> 0 <= bound ->
  (trip w' bound step <= trip w bound step <= trip w' bound step + 1)%nat.
Proof.
  intros Hw Hw' Hb. unfold trip.
  assert (0 <= (bound - w' + step - 1) / step) as H0 by (apply Z.div_pos; lia).
  assert ((bound - w' + step - 1) / step <= (bound - w + step - 1) / step) as H1.
  { apply Z.div_le_mono; lia. }
  assert ((bound - w + step - 1) / step <= (bound - w' + step - 1) / step + 1) as H2.
  { replace ((bound - w' + step - 1) / step + 1)
      with ((bound - w' + step - 1 + 1 * step) / step)
      by (rewrite Z.div_add by lia; reflexivity).
    apply Z.div_le_mono; lia. }
  lia.
Qed.

(** X6.  While the row counter stays below [2^32] ([M + nPE <= 2^32]) the
    strided assignment balances the load: of two workers of the pool the
    one with the smaller index runs the row body on as many rows as the
    other or on one more, never on fewer and never on two more. *)
Theorem parallel_rows_balanced
    (fuel : nat) (w w' : Z) (a : plp_mat_scale_stride_instance_f32) (h : mem) :
  U32.in_range (M a) -> U32.in_range (N a) -> M a + nPE a <= U32.modulus ->
  0 <= w <= w' -> w' < nPE a -> enough fuel (M a) -> enough fuel (N a) ->
  exists rows rows',
    worker_rows fuel w (M a) (nPE a) = Some rows /\
    worker_rows fuel w' (M a) (nPE a) = Some rows' /\
    plp_mat_scale_stride_f32p_xpulpv2 fuel w a h
    = Some (fold_left (fun s m => sc_row a m s) rows h) /\
    plp_mat_scale_stride_f32p_xpulpv2 fuel w' a h
    = Some (fold_left (fun s m => sc_row a m s) rows' h) /\
    (length rows' <= length rows <= length rows' + 1)%nat.
Proof.
  intros HM HN Hfit Hw Hw' FM FN.
  exists (steps (trip w (M a) (nPE a)) w (nPE a)),
         (steps (trip w' (M a) (nPE a)) w' (nPE a)).
  split; [|split; [|split; [|split]]].
  - apply worker_rows_total; auto. lia.
  - apply worker_rows_total; auto. lia.
  - apply sc_total; auto; unfold U32.in_range in *; lia.
  - apply sc_total; auto; unfold U32.in_range in *; lia.
  - rewrite !steps_length. apply trip_balance; auto.
    unfold U32.in_range in HM. lia.
Qed.

Lemma parallel_rows_balanced_witness :
  exists rows rows',
    worker_rows 6 0 (M demo_job) (nPE demo_job) = Some rows /\
    worker_rows 6 1 (M demo_job) (nPE demo_job) = Some rows' /\
    plp_mat_scale_stride_f32p_xpulpv2 6 0 demo_job demo_mem
    = Some (fold_left (fun s m => sc_row demo_job m s) rows demo_mem) /\
    plp_mat_scale_stride_f32p_xpulpv2 6 1 demo_job demo_mem
    = Some (fold_left (fun s m => sc_row demo_job m s) rows' demo_mem) /\
    (length rows' <= length rows <= length rows' + 1)%nat.
Proof.
  apply (parallel_rows_balanced 6 0 1 demo_job demo_mem).
  - unfold U32.in_range, U32.modulus. cbn. lia.
  - unfold U32.in_range, U32.modulus. cbn. lia.
  - unfold U32.modulus. cbn. lia.
  - lia.
  - cbn. lia.
  - unfold enough. cbn. lia.
  - unfold enough. cbn. lia.
Defined.



(** ** The 16-bit complex dot product: symmetry, reads, overflow *)

Lemma wrap32_eq (x y : Z) : x = y -> I32.wrap x = I32.wrap y.
Proof. now intros ->. Qed.

Lemma dp_pair_comm (pSrcA pSrcB : vec16) (i : Z) (s : Z * Z) :
  dp_pair pSrcA pSrcB i s = dp_pair pSrcB pSrcA i s.
Proof.
  destruct s as [re im]. unfold dp_pair.
  rewrite !shuffle_odd, !shuffle_even, !shuffle_swap.
  unfold load_v2s. cbn [fst snd].
  generalize (load16 pSrcA (U32.mul 4 i)) (load16 pSrcA (U32.mul 4 i + 1))
             (load16 pSrcA (U32.add (U32.mul 4 i) 2))
             (load16 pSrcA (U32.add (U32.mul 4 i) 2 + 1))
             (load16 pSrcB (U32.mul 4 i)) (load16 pSrcB (U32.mul 4 i + 1))
             (load16 pSrcB (U32.add (U32.mul 4 i) 2))
             (load16 pSrcB (U32.add (U32.mul 4 i) 2 + 1)).
  intros a b e f c d g h.
  unfold SUMDOTP2, DOTP2, I32.sub. cbn [fst snd]. f_equal.
  - replace (re + c * a + g * e) with (re + a * c + e * g) by ring.
    replace (d * b + h * f) with (b * d + f * h) by ring. reflexivity.
  - replace (im + c * b + d * a) with (im + a * d + b * c) by ring.
    apply wrap32_eq. ring.
Qed.

(** X8.  The dot product is symmetric in its two vectors: exchanging
    [pSrcA] and [pSrcB] changes neither result, for every number of samples
    and whatever the 32-bit sums do on the way. *)
Theorem cmplx_dot_prod_i16_symmetric
    (fuel : nat) (pSrcA pSrcB : vec16) (numSamples : Z) :
  plp_cmplx_dot_prod_i16_xpulpv2 fuel pSrcA pSrcB numSamples
  = plp_cmplx_dot_prod_i16_xpulpv2 fuel pSrcB pSrcA numSamples.
Proof.
  unfold plp_cmplx_dot_prod_i16_xpulpv2.
  rewrite (loop_u32_ext _
             (fun i s => Some (dp_pair pSrcB pSrcA i s)) (numSamples / 2) 1)
    by (try lia; intros j [re im] _; exact (f_equal Some
          (dp_pair_comm pSrcA pSrcB j (re, im)))).
  rewrite (loop_u32_ext
             (fun i '(real_sum, imag_sum) =>
                Some (dp_pair pSrcB pSrcA i (real_sum, imag_sum)))
             (fun i s => Some (dp_pair pSrcB pSrcA i s)) (numSamples / 2) 1)
    by (try lia; intros j [re im] _; reflexivity).
  destruct (loop_u32 fuel 0 (numSamples / 2) 1 _ (0, 0)) as [[i [re im]]|];
    [|reflexivity].
  destruct (negb (Z.land numSamples 1 =? 0)); [|reflexivity].
  generalize (load16 pSrcA (U32.mul 4 i))
             (load16 pSrcA (U32.add (U32.mul 4 i) 1))
             (load16 pSrcB (U32.mul 4 i))
             (load16 pSrcB (U32.add (U32.mul 4 i) 1)).
  intros a b c d. unfold I32.add, I32.sub, I32.mul.
  rewrite (Z.mul_comm c a), (Z.mul_comm d b), (Z.mul_comm c b), (Z.mul_comm d a).
  rewrite (Z.add_comm (I32.wrap (b * c)) (I32.wrap (a * d))). reflexivity.
Qed.

Lemma loop_u32_exit {St : Type} (body : Z -> St -> option St) (bound : Z) :
  bound < U32.modulus ->
  forall fuel i s i' s',
    0 <= i <= bound ->
    loop_u32 fuel i bound 1 body s = Some (i', s') -> i' = bound.
Proof.
  intros Hb. induction fuel as [|fuel IH]; intros i s i' s' Hi Hrun;
    [discriminate|].
  cbn [loop_u32] in Hrun. destruct (Z.ltb_spec i bound) as [Hlt|Hge].
  - destruct (body i s) as [s1|]; [|discriminate].
    apply IH in Hrun; [assumption|].
    unfold U32.add. rewrite wrap_small by (unfold U32.in_range; lia). lia.
  - injection Hrun as <- _. lia.
Qed.

(** X9.  The kernel reads the first [2 * numSamples] values of each vector
    and no other: two pairs of vectors that agree on these values give the
    same results, whatever lies behind them, also when [numSamples] is odd
    and the last sample is read alone. *)
Theorem cmplx_dot_prod_i16_reads_samples_only
    (fuel : nat) (pSrcA pSrcB pSrcA' pSrcB' : vec16) (numSamples : Z) :
  0 <= numSamples -> 2 * numSamples <= U32.modulus ->
  (forall j, 0 <= j < 2 * numSamples -> load16 pSrcA j = load16 pSrcA' j) ->
  (forall j, 0 <= j < 2 * numSamples -> load16 pSrcB j = load16 pSrcB' j) ->
  plp_cmplx_dot_prod_i16_xpulpv2 fuel pSrcA pSrcB numSamples
  = plp_cmplx_dot_prod_i16_xpulpv2 fuel pSrcA' pSrcB' numSamples.
Proof.
  intros Hn Hfit HA HB. unfold plp_cmplx_dot_prod_i16_xpulpv2.
  pose proof (Z.div_mod numSamples 2 ltac:(lia)) as Hdm.
  pose proof (Z.mod_pos_bound numSamples 2 ltac:(lia)) as Hmb.
  unfold U32.modulus in Hfit.
  assert (forall j, 0 <= j < 2 * numSamples -> U32.wrap j = j) as Hsmall.
  { intros j Hj. apply wrap_small. unfold U32.in_range, U32.modulus. lia. }
  rewrite (loop_u32_ext _
             (fun i '(real_sum, imag_sum) =>
                Some (dp_pair pSrcA' pSrcB' i (real_sum, imag_sum)))
             (numSamples / 2) 1); try lia.
  2: { intros j [re im] Hj. cbv beta iota. f_equal.
       unfold dp_pair, load_v2s, U32.add, U32.mul.
       rewrite (Hsmall (4 * j)) by lia. rewrite (Hsmall (4 * j + 2)) by lia.
       rewrite (HA (4 * j)), (HA (4 * j + 1)), (HA (4 * j + 2)),
               (HA (4 * j + 2 + 1)), (HB (4 * j)), (HB (4 * j + 1)),
               (HB (4 * j + 2)), (HB (4 * j + 2 + 1)) by lia.
       reflexivity. }
  change (fun i '(real_sum, imag_sum) =>
            Some (dp_pair pSrcA' pSrcB' i (real_sum, imag_sum)))
    with (fun (i : Z) (s : Z * Z) =>
            let '(real_sum, imag_sum) := s in
            Some (dp_pair pSrcA' pSrcB' i (real_sum, imag_sum))).
  destruct (loop_u32 fuel 0 (numSamples / 2) 1 _ (0, 0))
    as [[i [re im]]|] eqn:Hloop; [|reflexivity].
  apply loop_u32_exit in Hloop; [|unfold U32.modulus; lia | lia]. subst i.
  rewrite land_1.
  destruct (Z.eqb_spec (numSamples mod 2) 0) as [Heven|Hodd]; cbn [negb];
    [reflexivity|].
  unfold U32.add, U32.mul.
  rewrite (Hsmall (4 * (numSamples / 2))) by lia.
  rewrite (Hsmall (4 * (numSamples / 2) + 1)) by lia.
  rewrite (HA (4 * (numSamples / 2))), (HA (4 * (numSamples / 2) + 1)),
          (HB (4 * (numSamples / 2))), (HB (4 * (numSamples / 2) + 1)) by lia.
  reflexivity.
Qed.

Lemma cmplx_dot_prod_i16_reads_samples_only_witness :
  plp_cmplx_dot_prod_i16_xpulpv2 2 demo_vecA demo_vecB 3
  = plp_cmplx_dot_prod_i16_xpulpv2 2 demo_vecA_longer demo_vecB 3.
Proof.
  apply (cmplx_dot_prod_i16_reads_samples_only 2
           demo_vecA demo_vecB demo_vecA_longer demo_vecB 3).
  - lia.
  - unfold U32.modulus. lia.
  - intros j Hj. unfold load16, demo_vecA_longer.
    destruct (Z.eqb_spec j 6); [lia | reflexivity].
  - reflexivity.
Defined.

Lemma dp_closed_form (fuel : nat) (pSrcA pSrcB : vec16) (numSamples : Z) :
  0 <= numSamples -> 2 * numSamples <= U32.modulus ->
  enough fuel (numSamples / 2) ->
  plp_cmplx_dot_prod_i16_xpulpv2 fuel pSrcA pSrcB numSamples
  = Some (I16.wrap (exact_sum (sample_re pSrcA pSrcB) numSamples),
          I16.wrap (exact_sum (sample_im pSrcA pSrcB) numSamples)).
Proof.
  intros Hn Hfit Hf. unfold plp_cmplx_dot_prod_i16_xpulpv2.
  pose proof (Z.div_mod numSamples 2 ltac:(lia)) as Hdm.
  pose proof (Z.mod_pos_bound numSamples 2 ltac:(lia)) as Hmb.
  assert (0 <= numSamples / 2) as Hq by (apply Z.div_pos; lia).
  unfold U32.modulus, enough in *.
  rewrite (loop_u32_run _ (fun j s => dp_pair pSrcA pSrcB j s) (numSamples / 2) 1);
    unfold U32.modulus; rewrite ?trip_unit; try lia.
  2: { intros j [re im]. reflexivity. }
  rewrite dp_pairs_sum by (unfold U32.modulus; lia).
  rewrite Z2Nat.id by assumption.
  replace (0 + numSamples / 2 * 1) with (numSamples / 2) by lia.
  rewrite land_1. unfold U32.add, U32.mul.
  destruct (Z.eqb_spec (numSamples mod 2) 0) as [Heven|Hodd]; cbn [negb].
  - rewrite !I16_wrap_I32_wrap.
    replace (2 * (numSamples / 2)) with numSamples by lia. reflexivity.
  - rewrite (wrap_small (4 * (numSamples / 2)))
      by (unfold U32.in_range, U32.modulus; lia).
    rewrite (wrap_small (4 * (numSamples / 2) + 1))
      by (unfold U32.in_range, U32.modulus; lia).
    rewrite dp_tail_re, dp_tail_im, !I16_wrap_I32_wrap.
    rewrite <- !exact_sum_succ by lia.
    replace (2 * (numSamples / 2) + 1) with numSamples by lia. reflexivity.
Qed.

Lemma I16_wrap_range (z : Z) : - 2 ^ 15 <= I16.wrap z < 2 ^ 15.
Proof.
  unfold I16.wrap, swrap.
  pose proof (Z.mod_pos_bound (z + 2 ^ (16 - 1)) (2 ^ 16) ltac:(lia)).
  change (2 ^ (16 - 1)) with (2 ^ 15) in *. lia.
Qed.

Lemma I16_wrap_fits (z : Z) : - 2 ^ 15 <= z < 2 ^ 15 -> I16.wrap z = z.
Proof.
  intros Hz. unfold I16.wrap, swrap. change (2 ^ (16 - 1)) with (2 ^ 15).
  rewrite Z.mod_small by lia. lia.
Qed.

Lemma I16_wrap_exact_iff (z : Z) : I16.wrap z = z <-> - 2 ^ 15 <= z < 2 ^ 15.
Proof.
  split.
  - intros <-. apply I16_wrap_range.
  - apply I16_wrap_fits.
Qed.

(** X10.  The results do not saturate: each is a 16-bit value that differs
    from the exact sum by a multiple of [2^16], and it is the exact sum if
    and only if the exact sum fits in 16 bits. *)
Theorem cmplx_dot_prod_i16_wraps
    (fuel : nat) (pSrcA pSrcB : vec16) (numSamples : Z) :
  0 <= numSamples -> 2 * numSamples <= U32.modulus ->
  enough fuel (numSamples / 2) ->
  exists re im,
    plp_cmplx_dot_prod_i16_xpulpv2 fuel pSrcA pSrcB numSamples = Some (re, im) /\
    (- 2 ^ 15 <= re < 2 ^ 15 /\ - 2 ^ 15 <= im < 2 ^ 15) /\
    (exists k, re = exact_sum (sample_re pSrcA pSrcB) numSamples + k * 2 ^ 16) /\
    (exists k, im = exact_sum (sample_im pSrcA pSrcB) numSamples + k * 2 ^ 16) /\
    (re = exact_sum (sample_re pSrcA pSrcB) numSamples
     <-> - 2 ^ 15 <= exact_sum (sample_re pSrcA pSrcB) numSamples < 2 ^ 15) /\
    (im = exact_sum (sample_im pSrcA pSrcB) numSamples
     <-> - 2 ^ 15 <= exact_sum (sample_im pSrcA pSrcB) numSamples < 2 ^ 15).
Proof.
  intros Hn Hfit Hf.
  exists (I16.wrap (exact_sum (sample_re pSrcA pSrcB) numSamples)),
         (I16.wrap (exact_sum (sample_im pSrcA pSrcB) numSamples)).
  split; [now apply dp_closed_form|].
  split; [split; apply I16_wrap_range|].
  split; [apply (swrap_repr 16)|]. split; [apply (swrap_repr 16)|].
  split; apply I16_wrap_exact_iff.
Qed.

Lemma cmplx_dot_prod_i16_wraps_witness :
  exists re im,
    plp_cmplx_dot_prod_i16_xpulpv2 2 demo_vecA demo_vecB 3 = Some (re, im) /\
    (- 2 ^ 15 <= re < 2 ^ 15 /\ - 2 ^ 15 <= im < 2 ^ 15) /\
    (exists k, re = exact_sum (sample_re demo_vecA demo_vecB) 3 + k * 2 ^ 16) /\
    (exists k, im = exact_sum (sample_im demo_vecA demo_vecB) 3 + k * 2 ^ 16) /\
    (re = exact_sum (sample_re demo_vecA demo_vecB) 3
     <-> - 2 ^ 15 <= exact_sum (sample_re demo_vecA demo_vecB) 3 < 2 ^ 15) /\
    (im = exact_sum (sample_im demo_vecA demo_vecB) 3
     <-> - 2 ^ 15 <= exact_sum (sample_im demo_vecA demo_vecB) 3 < 2 ^ 15).
Proof.
  apply (cmplx_dot_prod_i16_wraps 2 demo_vecA demo_vecB 3).
  - lia.
  - unfold U32.modulus. lia.
  - unfold enough. cbn. lia.
Defined.

(** ** The 8-bit complex conjugate *)

Lemma I8_wrap_shift (z k : Z) : I8.wrap (z + k * 2 ^ 8) = I8.wrap z.
Proof. apply swrap_shift. Qed.

Lemma I8_wrap_repr (z : Z) : exists k, I8.wrap z = z + k * 2 ^ 8.
Proof. apply swrap_repr. Qed.

Lemma I8_wrap_idem (z : Z) : I8.wrap (I8.wrap z) = I8.wrap z.
Proof.
  destruct (I8_wrap_repr z) as [k Hk]. rewrite Hk at 1. apply I8_wrap_shift.
Qed.

Lemma I8_wrap_range (z : Z) : - 2 ^ 7 <= I8.wrap z < 2 ^ 7.
Proof.
  unfold I8.wrap, swrap.
  pose proof (Z.mod_pos_bound (z + 2 ^ (8 - 1)) (2 ^ 8) ltac:(lia)).
  change (2 ^ (8 - 1)) with (2 ^ 7) in *. lia.
Qed.

Lemma I8_wrap_fits (z : Z) : - 2 ^ 7 <= z < 2 ^ 7 -> I8.wrap z = z.
Proof.
  intros Hz. unfold I8.wrap, swrap. change (2 ^ (8 - 1)) with (2 ^ 7).
  rewrite Z.mod_small by lia. lia.
Qed.

(** The real lanes: exclusive or with 0, then plus 0. *)

Lemma lane_kept (x : Z) : I8.wrap (I8.wrap (Z.lxor x 0) + 0) = I8.wrap x.
Proof. now rewrite Z.lxor_0_r, Z.add_0_r, I8_wrap_idem. Qed.

(** The imaginary lanes: exclusive or with -1, then plus 1, is the
    negation in two's complement. *)

Lemma lane_negated (x : Z) : I8.wrap (I8.wrap (Z.lxor x (-1)) + 1) = I8.wrap (- x).
Proof.
  rewrite Z.lxor_m1_r. unfold Z.lnot.
  destruct (I8_wrap_repr (Z.pred (- x))) as [k ->].
  replace (Z.pred (- x) + k * 2 ^ 8 + 1) with (- x + k * 2 ^ 8) by lia.
  apply I8_wrap_shift.
Qed.

Lemma I8_neg_neg (x : Z) : I8.wrap (- I8.wrap (- x)) = I8.wrap x.
Proof.
  destruct (I8_wrap_repr (- x)) as [k ->].
  replace (- (- x + k * 2 ^ 8)) with (x + (- k) * 2 ^ 8) by ring.
  apply I8_wrap_shift.
Qed.

Lemma store8_same (h : mem8) (p i v : Z) : store8 h p i v (p + i) = I8.wrap v.
Proof. unfold store8. now rewrite Z.eqb_refl. Qed.

Lemma store8_other (h : mem8) (p i v a : Z) :
  a <> p + i -> store8 h p i v a = h a.
Proof. unfold store8. intros Hne. destruct (Z.eqb_spec a (p + i)); congruence. Qed.

Lemma conj_quad_frame (pSrc pDst i : Z) (h : mem8) (a : Z) :
  0 <= i -> 4 * i + 3 < U32.modulus ->
  ~ (pDst + 4 * i <= a < pDst + 4 * i + 4) ->
  conj_quad pSrc pDst i h a = h a.
Proof.
  intros Hi Hfit Ha. unfold conj_quad, store_v4s, load_v4s, EXOR4, ADD4.
  unfold U32.mul. rewrite wrap_small by (unfold U32.in_range; lia).
  rewrite !store8_other by lia. reflexivity.
Qed.

Lemma conj_quad_value (pSrc pDst i : Z) (h : mem8) (t : Z) :
  0 <= i -> 4 * i + 3 < U32.modulus -> 0 <= t < 4 ->
  conj_quad pSrc pDst i h (pDst + (4 * i + t)) = conj_value h pSrc (4 * i + t).
Proof.
  intros Hi Hfit Ht. unfold conj_quad, store_v4s, load_v4s, EXOR4, ADD4.
  unfold U32.mul. rewrite wrap_small by (unfold U32.in_range; lia).
  unfold conj_value.
  assert (t = 0 \/ t = 1 \/ t = 2 \/ t = 3) as [-> | [-> | [-> | ->]]] by lia.
  - replace (4 * i + 0) with (4 * i) by lia.
    rewrite !store8_other by lia. rewrite store8_same.
    replace (Z.even (4 * i)) with true
      by (symmetry; apply Z.even_spec; exists (2 * i); ring).
    rewrite lane_kept. unfold load8. now rewrite !I8_wrap_idem.
  - rewrite !store8_other by lia. rewrite store8_same.
    replace (Z.even (4 * i + 1)) with false
      by (symmetry; rewrite <- Z.negb_odd; apply negb_false_iff, Z.odd_spec;
          exists (2 * i); ring).
    rewrite lane_negated. now rewrite I8_wrap_idem.
  - rewrite !store8_other by lia. rewrite store8_same.
    replace (Z.even (4 * i + 2)) with true
      by (symmetry; apply Z.even_spec; exists (2 * i + 1); ring).
    rewrite lane_kept. unfold load8. now rewrite !I8_wrap_idem.
  - rewrite store8_same.
    replace (Z.even (4 * i + 3)) with false
      by (symmetry; rewrite <- Z.negb_odd; apply negb_false_iff, Z.odd_spec;
          exists (2 * i + 1); ring).
    rewrite lane_negated. now rewrite I8_wrap_idem.
Qed.

Lemma conj_loop_frame (pSrc pDst : Z) (h : mem8) (k : nat) (a : Z) :
  4 * Z.of_nat k <= U32.modulus ->
  ~ (pDst <= a < pDst + 4 * Z.of_nat k) ->
  fold_left (fun s j => conj_quad pSrc pDst j s) (steps k 0 1) h a = h a.
Proof.
  induction k as [|k IH]; intros Hfit Ha; [reflexivity|].
  rewrite steps_snoc, fold_left_app. cbn [fold_left].
  replace (0 + Z.of_nat k * 1) with (Z.of_nat k) by lia.
  rewrite conj_quad_frame by lia. apply IH; lia.
Qed.

Lemma conj_loop_values (pSrc pDst len : Z) (h : mem8) (k : nat) :
  4 * Z.of_nat k <= len -> len <= U32.modulus ->
  (forall j j', 0 <= j < len -> 0 <= j' < len -> pDst + j <> pSrc + j') ->
  forall j, 0 <= j < 4 * Z.of_nat k ->
    fold_left (fun s j => conj_quad pSrc pDst j s) (steps k 0 1) h (pDst + j)
    = conj_value h pSrc j.
Proof.
  intros Hk Hlen Hapart. induction k as [|k IH]; intros j Hj; [lia|].
  rewrite steps_snoc, fold_left_app. cbn [fold_left].
  replace (0 + Z.of_nat k * 1) with (Z.of_nat k) by lia.
  destruct (Z_lt_le_dec j (4 * Z.of_nat k)) as [Hold|Hnew].
  - rewrite conj_quad_frame by lia. apply IH; lia.
  - replace j with (4 * Z.of_nat k + (j - 4 * Z.of_nat k)) by lia.
    rewrite conj_quad_value by lia.
    unfold conj_value, load8.
    rewrite conj_loop_frame; [reflexivity | lia |].
    intros Hin.
    apply (Hapart (pSrc + (4 * Z.of_nat k + (j - 4 * Z.of_nat k)) - pDst) j);
      lia.
Qed.

Lemma conj_run (fuel : nat) (pSrc pDst numSamples : Z) (h : mem8) :
  0 <= numSamples -> 2 * numSamples <= U32.modulus ->
  enough fuel (numSamples / 2) ->
  exists h',
    plp_cmplx_conj_i8_xpulpv2 fuel pSrc pDst numSamples h = Some h' /\
    (forall a, ~ (pDst <= a < pDst + 2 * numSamples) -> h' a = h a) /\
    ((forall j j', 0 <= j < 2 * numSamples -> 0 <= j' < 2 * numSamples ->
        pDst + j <> pSrc + j') ->
     forall j, 0 <= j < 2 * numSamples -> h' (pDst + j) = conj_value h pSrc j).
Proof.
  intros Hn Hfit Hf. unfold plp_cmplx_conj_i8_xpulpv2.
  pose proof (Z.div_mod numSamples 2 ltac:(lia)) as Hdm.
  pose proof (Z.mod_pos_bound numSamples 2 ltac:(lia)) as Hmb.
  assert (0 <= numSamples / 2) as Hq by (apply Z.div_pos; lia).
  unfold enough in Hf.
  rewrite (loop_u32_run _ (fun j s => conj_quad pSrc pDst j s) (numSamples / 2) 1);
    rewrite ?trip_unit; auto; try lia.
  2: { unfold U32.modulus in *. lia. }
  replace (0 + Z.of_nat (Z.to_nat (numSamples / 2)) * 1) with (numSamples / 2)
    by lia.
  set (k := Z.to_nat (numSamples / 2)).
  assert (Z.of_nat k = numSamples / 2) as Hk by (unfold k; lia).
  set (hk := fold_left (fun s j => conj_quad pSrc pDst j s) (steps k 0 1) h).
  assert (forall a, ~ (pDst <= a < pDst + 4 * Z.of_nat k) -> hk a = h a) as Fk.
  { intros a Ha. unfold hk. apply conj_loop_frame; lia. }
  rewrite land_1.
  destruct (Z.eqb_spec (numSamples mod 2) 0) as [Heven|Hodd]; cbn [negb].
  - exists hk. split; [reflexivity|]. split.
    + intros a Ha. apply Fk. lia.
    + intros Hapart j Hj. unfold hk.
      apply (conj_loop_values pSrc pDst (2 * numSamples)); auto; lia.
  - unfold U32.add, U32.mul.
    rewrite (wrap_small (numSamples / 2 * 4))
      by (unfold U32.in_range, U32.modulus in *; lia).
    rewrite (wrap_small (numSamples / 2 * 4 + 1))
      by (unfold U32.in_range, U32.modulus in *; lia).
    eexists. split; [reflexivity|]. split.
    + intros a Ha. rewrite !store8_other by lia. apply Fk. lia.
    + intros Hapart j Hj.
      assert (forall j', 0 <= j' < 2 * numSamples -> hk (pSrc + j') = h (pSrc + j'))
        as Hsrc.
      { intros j' Hj'. apply Fk. intros Hin.
        apply (Hapart (pSrc + j' - pDst) j'); lia. }
      destruct (Z.eq_dec j (numSamples / 2 * 4 + 1)) as [->|Hne1];
        [|destruct (Z.eq_dec j (numSamples / 2 * 4)) as [->|Hne0]].
      * rewrite store8_same. unfold conj_value.
        replace (Z.even (numSamples / 2 * 4 + 1)) with false
          by (symmetry; rewrite <- Z.negb_odd; apply negb_false_iff, Z.odd_spec;
              exists (numSamples / 2 * 2); ring).
        unfold load8. rewrite store8_other by (apply not_eq_sym, Hapart; lia).
        now rewrite Hsrc by lia.
      * rewrite store8_other by lia. rewrite store8_same. unfold conj_value.
        replace (Z.even (numSamples / 2 * 4)) with true
          by (symmetry; apply Z.even_spec; exists (numSamples / 2 * 2); ring).
        unfold load8. now rewrite I8_wrap_idem, Hsrc by lia.
      * rewrite !store8_other by lia. unfold hk.
        apply (conj_loop_values pSrc pDst (2 * numSamples)); auto; lia.
Qed.

Lemma I8_neg_cases (x : Z) :
  - 2 ^ 7 <= x < 2 ^ 7 ->
  (x <> - 2 ^ 7 -> I8.wrap (- x) = - x) /\ (x = - 2 ^ 7 -> I8.wrap (- x) = - 2 ^ 7).
Proof.
  intros Hx. split.
  - intros Hne. apply I8_wrap_fits. lia.
  - intros ->. reflexivity.
Qed.

(** X11.  For every number of samples, even or odd, and a destination that
    does not overlap the source, the kernel returns and the destination
    holds the conjugate of every sample: the real part copied, the
    imaginary part negated in 8 bits, which is the negation except for
    [-128], whose conjugate stays [-128]. *)
Theorem cmplx_conj_i8_conjugates
    (fuel : nat) (pSrc pDst numSamples : Z) (h : mem8) :
  0 <= numSamples -> 2 * numSamples <= U32.modulus ->
  (forall j j', 0 <= j < 2 * numSamples -> 0 <= j' < 2 * numSamples ->
     pDst + j <> pSrc + j') ->
  enough fuel (numSamples / 2) ->
  exists h',
    plp_cmplx_conj_i8_xpulpv2 fuel pSrc pDst numSamples h = Some h' /\
    forall n, 0 <= n < numSamples ->
      h' (pDst + 2 * n) = load8 h pSrc (2 * n) /\
      h' (pDst + (2 * n + 1)) = I8.wrap (- load8 h pSrc (2 * n + 1)) /\
      (load8 h pSrc (2 * n + 1) <> - 2 ^ 7 ->
       h' (pDst + (2 * n + 1)) = - load8 h pSrc (2 * n + 1)) /\
      (load8 h pSrc (2 * n + 1) = - 2 ^ 7 -> h' (pDst + (2 * n + 1)) = - 2 ^ 7).
Proof.
  intros Hn Hfit Hapart Hf.
  destruct (conj_run fuel pSrc pDst numSamples h Hn Hfit Hf) as (h' & Hrun & _ & Hval).
  exists h'. split; [assumption|]. intros n Hnn.
  specialize (Hval Hapart).
  assert (h' (pDst + 2 * n) = load8 h pSrc (2 * n)) as Hre.
  { rewrite Hval by lia. unfold conj_value.
    replace (Z.even (2 * n)) with true
      by (symmetry; apply Z.even_spec; exists n; ring).
    reflexivity. }
  assert (h' (pDst + (2 * n + 1)) = I8.wrap (- load8 h pSrc (2 * n + 1))) as Him.
  { rewrite Hval by lia. unfold conj_value.
    replace (Z.even (2 * n + 1)) with false
      by (symmetry; rewrite <- Z.negb_odd; apply negb_false_iff, Z.odd_spec;
          exists n; ring).
    reflexivity. }
  destruct (I8_neg_cases (load8 h pSrc (2 * n + 1)) (I8_wrap_range _))
    as [Hneg Hmin].
  repeat split; auto.
  - intros Hne. rewrite Him. now apply Hneg.
  - intros He. rewrite Him. now apply Hmin.
Qed.

Lemma cmplx_conj_i8_conjugates_witness :
  exists h',
    plp_cmplx_conj_i8_xpulpv2 2 0 100 3 demo_mem8 = Some h' /\
    forall n, 0 <= n < 3 ->
      h' (100 + 2 * n) = load8 demo_mem8 0 (2 * n) /\
      h' (100 + (2 * n + 1)) = I8.wrap (- load8 demo_mem8 0 (2 * n + 1)) /\
      (load8 demo_mem8 0 (2 * n + 1) <> - 2 ^ 7 ->
       h' (100 + (2 * n + 1)) = - load8 demo_mem8 0 (2 * n + 1)) /\
      (load8 demo_mem8 0 (2 * n + 1) = - 2 ^ 7 ->
       h' (100 + (2 * n + 1)) = - 2 ^ 7).
Proof.
  apply (cmplx_conj_i8_conjugates 2 0 100 3 demo_mem8).
  - lia.
  - unfold U32.modulus. lia.
  - intros j j' Hj Hj'. lia.
  - unfold enough. cbn. lia.
Defined.

(** X12.  The kernel writes the [2 * numSamples] cells of the destination
    and no other, whether or not source and destination overlap: every
    other cell keeps its value, and with no sample the store is returned
    as it was. *)
Theorem cmplx_conj_i8_frame
    (fuel : nat) (pSrc pDst numSamples : Z) (h : mem8) :
  0 <= numSamples -> 2 * numSamples <= U32.modulus ->
  enough fuel (numSamples / 2) ->
  exists h',
    plp_cmplx_conj_i8_xpulpv2 fuel pSrc pDst numSamples h = Some h' /\
    (forall a, ~ (pDst <= a < pDst + 2 * numSamples) -> h' a = h a) /\
    (numSamples = 0 -> forall a, h' a = h a).
Proof.
  intros Hn Hfit Hf.
  destruct (conj_run fuel pSrc pDst numSamples h Hn Hfit Hf) as (h' & Hrun & Hfr & _).
  exists h'. repeat split; auto.
  intros -> a. apply Hfr. lia.
Qed.

Lemma cmplx_conj_i8_frame_witness :
  exists h',
    plp_cmplx_conj_i8_xpulpv2 2 0 2 3 demo_mem8 = Some h' /\
    (forall a, ~ (2 <= a < 2 + 2 * 3) -> h' a = demo_mem8 a) /\
    (3 = 0 -> forall a, h' a = demo_mem8 a).
Proof.
  apply (cmplx_conj_i8_frame 2 0 2 3 demo_mem8).
  - lia.
  - unfold U32.modulus. lia.
  - unfold enough. cbn. lia.
Defined.

(** X13.  Conjugating twice gives the vector back: the conjugate of the
    conjugate, written to a third vector, holds every value of the source
    as the first call read it, [-128] included. *)
Theorem cmplx_conj_i8_involutive
    (fuel : nat) (pSrc pDst pOut numSamples : Z) (h : mem8) :
  0 <= numSamples -> 2 * numSamples <= U32.modulus ->
  (forall j j', 0 <= j < 2 * numSamples -> 0 <= j' < 2 * numSamples ->
     pDst + j <> pSrc + j') ->
  (forall j j', 0 <= j < 2 * numSamples -> 0 <= j' < 2 * numSamples ->
     pOut + j <> pDst + j') ->
  enough fuel (numSamples / 2) ->
  exists h1 h2,
    plp_cmplx_conj_i8_xpulpv2 fuel pSrc pDst numSamples h = Some h1 /\
    plp_cmplx_conj_i8_xpulpv2 fuel pDst pOut numSamples h1 = Some h2 /\
    forall j, 0 <= j < 2 * numSamples -> h2 (pOut + j) = load8 h pSrc j.
Proof.
  intros Hn Hfit Hap1 Hap2 Hf.
  destruct (conj_run fuel pSrc pDst numSamples h Hn Hfit Hf)
    as (h1 & Hrun1 & _ & Hval1).
  destruct (conj_run fuel pDst pOut numSamples h1 Hn Hfit Hf)
    as (h2 & Hrun2 & _ & Hval2).
  exists h1, h2. split; [assumption|]. split; [assumption|].
  intros j Hj. rewrite (Hval2 Hap2 j Hj).
  unfold conj_value at 1. unfold load8 at 1 2. rewrite (Hval1 Hap1 j Hj).
  unfold conj_value. destruct (Z.even j).
  - unfold load8. now rewrite !I8_wrap_idem.
  - rewrite I8_wrap_idem, I8_neg_neg. unfold load8. now rewrite I8_wrap_idem.
Qed.

Lemma cmplx_conj_i8_involutive_witness :
  exists h1 h2,
    plp_cmplx_conj_i8_xpulpv2 2 0 100 3 demo_mem8 = Some h1 /\
    plp_cmplx_conj_i8_xpulpv2 2 100 200 3 h1 = Some h2 /\
    forall j, 0 <= j < 2 * 3 -> h2 (200 + j) = load8 demo_mem8 0 j.
Proof.
  apply (cmplx_conj_i8_involutive 2 0 100 200 3 demo_mem8).
  - lia.
  - unfold U32.modulus. lia.
  - intros j j' Hj Hj'. lia.
  - intros j j' Hj Hj'. lia.
  - unfold enough. cbn. lia.
Defined.

Example conj_three_samples :
  match plp_cmplx_conj_i8_xpulpv2 2 0 100 3 demo_mem8 with
  | Some h => map h [100; 101; 102; 103; 104; 105; 106; 107]
  | None => []
  end
  = [1; -2; -3; -128; 5; -127; 0; 0].
Proof. reflexivity. Qed.
